(** * Portmanteau tests (Ljung-Box, Box-Pierce) of [ljungbox.py]

    A shallow embedding of the four functions of [src/ljungbox.py]
    ([sac], [ljungbox], [boxpierce], [lbqtest]) and the proofs of the
    properties stated about them.

    Numbers.  The source computes with numpy [float64].  The functions
    are embedded twice, statement for statement.

    - Over the exact arithmetic [num]: a finite value is an exact real
      ([Fin r]), and the special values that a division by zero produces
      ([+inf], [-inf], [nan]) are kept, with the propagation rules numpy
      applies to them (a warning, never an exception).  Rounding,
      overflow and underflow are not modelled: what is proved of these
      functions about real values holds in exact real arithmetic, and is
      said so.
    - Over any arithmetic ([Generic]): the operations of the element type
      are left abstract.  What is proved of these functions holds of the
      program as it runs, in binary64; [exact] and [binary64] are two
      instances, the first giving back the functions over [num], the
      second computing with the primitive IEEE 754 floats.

    Python [int]s are [Z]; an [int] used in float arithmetic is
    converted ([IZR], [Generic.of_int]). *)

From Stdlib Require Import String.
From Stdlib Require Import Reals Lra Lia ZArith Bool List.
From Stdlib Require Import Floats.
Import ListNotations.
Open Scope R_scope.

(** ** Extended reals: the values of a [float64], without rounding *)

Inductive num : Type :=
| Fin (r : R)
| PInf
| NInf
| NaN.

Inductive sign : Type := Neg | Zero | Pos.

Definition Rsign (r : R) : sign :=
  if Rlt_dec r 0 then Neg else if Rlt_dec 0 r then Pos else Zero.

(** The sign of a value; [NaN] is never asked for its sign. *)
Definition nsign (a : num) : sign :=
  match a with
  | Fin r => Rsign r
  | PInf => Pos
  | NInf => Neg
  | NaN => Zero
  end.

Definition sign_mul (s t : sign) : sign :=
  match s, t with
  | Zero, _ | _, Zero => Zero
  | Pos, Pos | Neg, Neg => Pos
  | Pos, Neg | Neg, Pos => Neg
  end.

(** An infinity of the given sign; [inf * 0] and [0 / 0] are [nan]. *)
Definition inf_of_sign (s : sign) : num :=
  match s with
  | Pos => PInf
  | Neg => NInf
  | Zero => NaN
  end.

Definition nneg (a : num) : num :=
  match a with
  | Fin r => Fin (- r)
  | PInf => NInf
  | NInf => PInf
  | NaN => NaN
  end.

Definition nadd (a b : num) : num :=
  match a, b with
  | NaN, _ | _, NaN => NaN
  | Fin r, Fin s => Fin (r + s)
  | PInf, NInf | NInf, PInf => NaN
  | PInf, _ | _, PInf => PInf
  | NInf, _ | _, NInf => NInf
  end.

Definition nsub (a b : num) : num := nadd a (nneg b).

Definition nmul (a b : num) : num :=
  match a, b with
  | NaN, _ | _, NaN => NaN
  | Fin r, Fin s => Fin (r * s)
  | _, _ => inf_of_sign (sign_mul (nsign a) (nsign b))
  end.

(** Division.  Every zero divisor of this program is a [+0.0] (a Python
    [int] zero, or [len(x) * var] with [var >= 0]), so [r / 0] takes the
    sign of [r]. *)
Definition ndiv (a b : num) : num :=
  match a, b with
  | NaN, _ | _, NaN => NaN
  | Fin r, Fin s =>
      if Req_dec_T s 0 then inf_of_sign (Rsign r) else Fin (r / s)
  | Fin _, _ => Fin 0
  | _, Fin s =>
      inf_of_sign
        (sign_mul (nsign a) (if Req_dec_T s 0 then Pos else Rsign s))
  | _, _ => NaN
  end.

(** [a ** 2] *)
Definition nsqr (a : num) : num := nmul a a.

(** [a > b]; every comparison with [nan] is [False]. *)
Definition ngtb (a b : num) : bool :=
  match a, b with
  | NaN, _ | _, NaN => false
  | Fin r, Fin s => if Rlt_dec s r then true else false
  | PInf, PInf => false
  | PInf, _ => true
  | NInf, _ => false
  | Fin _, NInf => true
  | Fin _, PInf => false
  end.

(** ** Exceptions *)

(** The exceptions a statement of the source could raise on arrays and
    integers ([ValueError]: operands that do not broadcast; [IndexError]:
    an index out of range; [TypeError]: iterating over an integer, which
    [sac] catches), and [InvalidArgument], the error condition of the
    specification, which no statement of the source raises. *)
Inductive exn : Type := ValueError | IndexError | TypeError | InvalidArgument.

Inductive result (A : Type) : Type :=
| Returns (a : A)
| Raises (e : exn).

Arguments Returns {A} a.
Arguments Raises {A} e.

Definition bind {A B : Type} (c : result A) (k : A -> result B) : result B :=
  match c with
  | Returns a => k a
  | Raises e => Raises e
  end.

Notation "x <- c ;; k" := (bind c (fun x => k))
  (at level 61, c at next level, right associativity).

(** A [for] loop over the finite sequence [l], threading the loop state. *)
Fixpoint for_each {A S : Type} (l : list A) (body : A -> S -> result S)
  (s : S) : result S :=
  match l with
  | [] => Returns s
  | a :: l' => s' <- body a s ;; for_each l' body s'
  end.

(** ** Python integers, ranges and slices *)

Definition len {A : Type} (x : list A) : Z := Z.of_nat (length x).

Fixpoint range_from (lo : Z) (n : nat) : list Z :=
  match n with
  | O => []
  | S n' => lo :: range_from (lo + 1) n'
  end.

(** [range(lo, hi)] *)
Definition py_range (lo hi : Z) : list Z := range_from lo (Z.to_nat (hi - lo)).

(** A slice bound, as Python resolves it against a sequence of length [n]:
    a negative bound counts from the end, and the result is clamped to
    [0 .. n]. *)
Definition slice_bound (n b : Z) : nat :=
  Z.to_nat (if (b <? 0)%Z then Z.max (b + n) 0 else Z.min b n).

(** [x[:stop]] *)
Definition slice_to {A : Type} (x : list A) (stop : Z) : list A :=
  firstn (slice_bound (len x) stop) x.

(** [x[start:]] *)
Definition slice_from {A : Type} (x : list A) (start : Z) : list A :=
  skipn (slice_bound (len x) start) x.

(** [enumerate(l)] *)
Fixpoint enumerate_from {A : Type} (i : nat) (l : list A) : list (nat * A) :=
  match l with
  | [] => []
  | a :: l' => (i, a) :: enumerate_from (S i) l'
  end.

Definition enumerate {A : Type} (l : list A) : list (nat * A) :=
  enumerate_from 0 l.

(** ** One-dimensional numpy arrays *)

Definition array : Type := list num.

Definition map2 {A B C : Type} (f : A -> B -> C) (a : list A) (b : list B)
  : list C :=
  map (fun p => f (fst p) (snd p)) (combine a b).

(** An elementwise binary operation on two 1-d arrays: equal shapes pair
    up, a shape of one element is stretched, anything else does not
    broadcast. *)
Definition broadcast2 {A B C : Type} (f : A -> B -> C)
  (a : list A) (b : list B) : result (list C) :=
  if Nat.eqb (length a) (length b) then Returns (map2 f a b)
  else
    match a, b with
    | [a0], _ => Returns (map (f a0) b)
    | _, [b0] => Returns (map (fun ai => f ai b0) a)
    | _, _ => Raises ValueError
    end.

(** [a * b] *)
Definition arr_mul (a b : array) : result array := broadcast2 nmul a b.

(** [a - m], [m] a scalar *)
Definition arr_sub_scalar (a : array) (m : num) : array :=
  map (fun ai => nsub ai m) a.

(** [np.sum(a)]; the sum of an empty array is [0.0]. *)
Definition np_sum (a : array) : num := fold_left nadd a (Fin 0).

(** [np.mean(a)]: the sum over the number of elements. *)
Definition np_mean (a : array) : num := ndiv (np_sum a) (Fin (IZR (len a))).

(** [np.var(a)] (ddof = 0): the mean of the squared deviations from the
    mean. *)
Definition np_var (a : array) : num :=
  let d := arr_sub_scalar a (np_mean a) in
  ndiv (np_sum (map2 nmul d d)) (Fin (IZR (len a))).

(** [np.zeros(n)] *)
Definition np_zeros (n : nat) : array := repeat (Fin 0) n.

(** [a[i]] *)
Definition getitem (a : array) (i : nat) : result num :=
  match nth_error a i with
  | Some v => Returns v
  | None => Raises IndexError
  end.

Fixpoint update (a : array) (i : nat) (v : num) : array :=
  match a, i with
  | [], _ => []
  | _ :: a', O => v :: a'
  | a0 :: a', S i' => a0 :: update a' i' v
  end.

(** [a[i] = v] *)
Definition setitem (a : array) (i : nat) (v : num) : result array :=
  if Nat.ltb i (length a) then Returns (update a i v) else Raises IndexError.

(** ** The functions of [ljungbox.py] *)

(** [sac(x, k)] for an integer [k].  The [try] block iterates over [k];
    on an integer that raises at once, the bare [except] discards it, and
    control reaches the scalar formula below. *)
Definition sac (x : array) (k : Z) : result num :=
  let mx := np_mean x in
  N <- (if (k =? 0)%Z then
          p <- arr_mul (arr_sub_scalar x mx) (arr_sub_scalar x mx) ;;
          Returns (np_sum p)
        else
          p <- arr_mul (arr_sub_scalar (slice_to x (- k)) mx)
                       (arr_sub_scalar (slice_from x k) mx) ;;
          Returns (np_sum p)) ;;
  let D := nmul (Fin (IZR (len x))) (np_var x) in
  Returns (ndiv N D).

(** [sac(x, k)] for a list [k] of integers: the [try] block collects the
    scalar results in order.  Were one of the calls to raise, the bare
    [except] would discard the exception and the scalar formula would
    fail on the list ([-k] is a [TypeError]). *)
Definition sac_seq (x : array) (ks : list Z) : result array :=
  match for_each ks (fun ki res => r <- sac x ki ;; Returns (res ++ [r])) [] with
  | Returns res => Returns res
  | Raises _ => Raises TypeError
  end.

Definition ljungbox (x : array) (lags : Z) (alpha : R) : result num :=
  let n := len x in
  Q <- for_each (py_range 1 (lags + 1))
         (fun k Q =>
            r <- sac x k ;;
            Returns (nadd Q (ndiv (nsqr r) (Fin (IZR (n - k))))))
         (Fin 0) ;;
  Returns (nmul (Fin (IZR (n * (n + 2)))) Q).

Definition boxpierce (x : array) (lags : Z) (alpha : R) : result num :=
  let n := len x in
  Q <- for_each (py_range 1 (lags + 1))
         (fun k Q =>
            r <- sac x k ;;
            Returns (nadd Q (nsqr r)))
         (Fin 0) ;;
  Returns (nmul (Fin (IZR n)) Q).

(** The default value of [alpha]. *)
Definition alpha_default : R := 1 / 10.

(** The accumulator [lbqtest] binds to [findq]: Ljung-Box for ['lb'],
    Box-Pierce for every other [method]. *)
Definition selected (method : string) : array -> Z -> R -> result num :=
  if String.eqb method "lb" then ljungbox else boxpierce.

Section Driver.

(** [scipy.stats.chi2.cdf] and [scipy.stats.chi2.ppf], supplied by the
    statistics library; they return [nan] on arguments out of their
    domain and do not raise. *)
Variable chi2_cdf : num -> Z -> num.
Variable chi2_ppf : num -> Z -> num.

(** The state of the loop of [lbqtest]: the arrays [Q], [pV] and [cV]. *)
Record arrays : Type := mkArrays { arrQ : array; arrpV : array; arrcV : array }.

Definition lbqtest_step (findq : array -> Z -> R -> result num)
  (x : array) (alpha : R) (it : nat * Z) (st : arrays) : result arrays :=
  let (i, lag) := it in
  q <- findq x lag alpha_default ;;
  Q <- setitem (arrQ st) i q ;;
  Qi <- getitem Q i ;;
  pV <- setitem (arrpV st) i (nsub (Fin 1) (chi2_cdf Qi lag)) ;;
  cV <- setitem (arrcV st) i (chi2_ppf (Fin (1 - alpha)) lag) ;;
  Returns (mkArrays Q pV cV).

Definition lbqtest (x : array) (lags : list Z) (alpha : R) (method : string)
  : result (list bool * array * array * array) :=
  let findq := selected method in
  let n := len x in
  let st0 := mkArrays (np_zeros (length lags)) (np_zeros (length lags))
                      (np_zeros (length lags)) in
  st <- for_each (enumerate lags) (lbqtest_step findq x alpha) st0 ;;
  h <- broadcast2 ngtb (arrQ st) (arrcV st) ;;
  Returns (h, arrpV st, arrQ st, arrcV st).

(** What the loop of [lbqtest] leaves at one index of the three arrays,
    for the lag [lag] it met there. *)
Definition row (findq : array -> Z -> R -> result num) (x : array) (alpha : R)
  (lag : Z) (q pv cv : num) : Prop :=
  findq x lag alpha_default = Returns q /\
  pv = nsub (Fin 1) (chi2_cdf q lag) /\
  cv = chi2_ppf (Fin (1 - alpha)) lag.

Definition row_at (findq : array -> Z -> R -> result num) (x : array)
  (alpha : R) (st : arrays) (i : nat) (lag : Z) : Prop :=
  row findq x alpha lag
      (nth i (arrQ st) NaN) (nth i (arrpV st) NaN) (nth i (arrcV st) NaN).

End Driver.

(** The three arrays keep their shapes from [st] to [st']. *)
Definition same_shape (st st' : arrays) : Prop :=
  length (arrQ st') = length (arrQ st) /\
  length (arrpV st') = length (arrpV st) /\
  length (arrcV st') = length (arrcV st).

(** The three arrays keep their entries below index [i]. *)
Definition same_below (i : nat) (st st' : arrays) : Prop :=
  forall j, (j < i)%nat ->
    nth j (arrQ st') NaN = nth j (arrQ st) NaN /\
    nth j (arrpV st') NaN = nth j (arrpV st) NaN /\
    nth j (arrcV st') NaN = nth j (arrcV st) NaN.

(** The three arrays have at least [n] entries. *)
Definition fits (n : nat) (st : arrays) : Prop :=
  (n <= length (arrQ st))%nat /\ (n <= length (arrpV st))%nat /\
  (n <= length (arrcV st))%nat.

(** * The program over any arithmetic

    The four functions again, written once for every arithmetic of the
    array elements: the same statements, with the operations of
    [float64] left abstract.  What is proved of them holds of the program
    as it runs in binary64, with rounding, overflow and underflow, and of
    the exact arithmetic above, which is one instance. *)

Module Generic.

(** What the program asks of the type of its array elements. *)
Class Arith (F : Type) : Type := {
  (** the float of a Python [int] *)
  of_int : Z -> F;
  add : F -> F -> F;
  sub : F -> F -> F;
  mul : F -> F -> F;
  div : F -> F -> F;
  (** [a ** 2] *)
  sqr : F -> F;
  (** [a > b] *)
  gtb : F -> F -> bool;
  (** [np.sum], the reduction of a one-dimensional array *)
  np_sum : list F -> F;
  (** the float [0.1], the default value of [alpha] *)
  default_alpha : F
}.

Section Program.

Context {F : Type} {A : Arith F}.

(** [a * b] *)
Definition arr_mul (a b : list F) : result (list F) := broadcast2 mul a b.

(** [a - m], [m] a scalar *)
Definition arr_sub_scalar (a : list F) (m : F) : list F :=
  map (fun ai => sub ai m) a.

(** [np.mean(a)] *)
Definition np_mean (a : list F) : F := div (np_sum a) (of_int (len a)).

(** [np.var(a)] (ddof = 0) *)
Definition np_var (a : list F) : F :=
  let d := arr_sub_scalar a (np_mean a) in
  div (np_sum (map2 mul d d)) (of_int (len a)).

(** [np.zeros(n)] *)
Definition np_zeros (n : nat) : list F := repeat (of_int 0) n.

(** [a[i]] *)
Definition getitem (a : list F) (i : nat) : result F :=
  match nth_error a i with
  | Some v => Returns v
  | None => Raises IndexError
  end.

Fixpoint update (a : list F) (i : nat) (v : F) : list F :=
  match a, i with
  | [], _ => []
  | _ :: a', O => v :: a'
  | a0 :: a', S i' => a0 :: update a' i' v
  end.

(** [a[i] = v] *)
Definition setitem (a : list F) (i : nat) (v : F) : result (list F) :=
  if Nat.ltb i (length a) then Returns (update a i v) else Raises IndexError.

(** [sac(x, k)] for an integer [k] *)
Definition sac (x : list F) (k : Z) : result F :=
  let mx := np_mean x in
  N <- (if (k =? 0)%Z then
          p <- arr_mul (arr_sub_scalar x mx) (arr_sub_scalar x mx) ;;
          Returns (np_sum p)
        else
          p <- arr_mul (arr_sub_scalar (slice_to x (- k)) mx)
                       (arr_sub_scalar (slice_from x k) mx) ;;
          Returns (np_sum p)) ;;
  let D := mul (of_int (len x)) (np_var x) in
  Returns (div N D).

(** [sac(x, k)] for a list [k] of integers *)
Definition sac_seq (x : list F) (ks : list Z) : result (list F) :=
  match for_each ks (fun ki res => r <- sac x ki ;; Returns (res ++ [r])) [] with
  | Returns res => Returns res
  | Raises _ => Raises TypeError
  end.

(** [ljungbox(x, lags, alpha)].  [Q] starts as the integer [0]; the first
    [Q += ...] adds the float of [0]. *)
Definition ljungbox (x : list F) (lags : Z) (alpha : F) : result F :=
  let n := len x in
  Q <- for_each (py_range 1 (lags + 1))
         (fun k Q =>
            r <- sac x k ;;
            Returns (add Q (div (sqr r) (of_int (n - k)))))
         (of_int 0) ;;
  Returns (mul (of_int (n * (n + 2))) Q).

(** [boxpierce(x, lags, alpha)] *)
Definition boxpierce (x : list F) (lags : Z) (alpha : F) : result F :=
  let n := len x in
  Q <- for_each (py_range 1 (lags + 1))
         (fun k Q =>
            r <- sac x k ;;
            Returns (add Q (sqr r)))
         (of_int 0) ;;
  Returns (mul (of_int n) Q).

(** The accumulator [lbqtest] binds to [findq]. *)
Definition selected (method : string) : list F -> Z -> F -> result F :=
  if String.eqb method "lb" then ljungbox else boxpierce.

(** [scipy.stats.chi2.cdf] and [scipy.stats.chi2.ppf] *)
Variable chi2_cdf : F -> Z -> F.
Variable chi2_ppf : F -> Z -> F.

(** The arrays [Q], [pV] and [cV] of [lbqtest]. *)
Record arrays : Type := mkArrays { arrQ : list F; arrpV : list F; arrcV : list F }.

Definition lbqtest_step (findq : list F -> Z -> F -> result F)
  (x : list F) (alpha : F) (it : nat * Z) (st : arrays) : result arrays :=
  let (i, lag) := it in
  q <- findq x lag default_alpha ;;
  Q <- setitem (arrQ st) i q ;;
  Qi <- getitem Q i ;;
  pV <- setitem (arrpV st) i (sub (of_int 1) (chi2_cdf Qi lag)) ;;
  cV <- setitem (arrcV st) i (chi2_ppf (sub (of_int 1) alpha) lag) ;;
  Returns (mkArrays Q pV cV).

(** [lbqtest(x, lags, alpha, method)] *)
Definition lbqtest (x : list F) (lags : list Z) (alpha : F) (method : string)
  : result (list bool * list F * list F * list F) :=
  let findq := selected method in
  let n := len x in
  let st0 := mkArrays (np_zeros (length lags)) (np_zeros (length lags))
                      (np_zeros (length lags)) in
  st <- for_each (enumerate lags) (lbqtest_step findq x alpha) st0 ;;
  h <- broadcast2 gtb (arrQ st) (arrcV st) ;;
  Returns (h, arrpV st, arrQ st, arrcV st).

End Program.

End Generic.

(** ** Two arithmetics *)

(** The exact arithmetic of the first part. *)
#[global]
Instance exact : Generic.Arith num := {|
  Generic.of_int z := Fin (IZR z);
  Generic.add := nadd;
  Generic.sub := nsub;
  Generic.mul := nmul;
  Generic.div := ndiv;
  Generic.sqr := nsqr;
  Generic.gtb := ngtb;
  Generic.np_sum := np_sum;
  Generic.default_alpha := Fin alpha_default
|}.

(** The float of a Python [int], rounded to nearest even. *)
Definition float_of_int (z : Z) : float :=
  SF2Prim (binary_normalize prec emax z 0 false).

(** The sum of the eight running sums of numpy's pairwise summation. *)
Definition sum_of_eight (r : list float) : float :=
  match r with
  | [r0; r1; r2; r3; r4; r5; r6; r7] =>
      (((r0 + r1) + (r2 + r3)) + ((r4 + r5) + (r6 + r7)))%float
  | _ => fold_left PrimFloat.add r 0%float
  end.

(** The running sums, one block of eight values at a time. *)
Fixpoint add_blocks (n : nat) (r a : list float) : list float :=
  match n with
  | O => r
  | S n' => add_blocks n' (map2 PrimFloat.add r (firstn 8 a)) (skipn 8 a)
  end.

(** numpy's pairwise summation of [a]: a plain loop below eight values,
    eight running sums up to 128 values, two halves beyond. *)
Fixpoint pairwise_sum (fuel : nat) (a : list float) : float :=
  let n := length a in
  if (n <? 8)%nat then fold_left PrimFloat.add a 0%float
  else if (n <=? 128)%nat then
    let r := add_blocks (n / 8 - 1) (firstn 8 a) (skipn 8 a) in
    fold_left PrimFloat.add (skipn (n - n mod 8) a) (sum_of_eight r)
  else
    match fuel with
    | O => fold_left PrimFloat.add a 0%float
    | S fuel' =>
        let n2 := (n / 2 - (n / 2) mod 8)%nat in
        (pairwise_sum fuel' (firstn n2 a) + pairwise_sum fuel' (skipn n2 a))%float
    end.

(** [np.sum] on a [float64] array: the identity [0.0] plus the pairwise
    sum of the elements. *)
Definition float_sum (a : list float) : float :=
  (0 + pairwise_sum (length a) a)%float.

(** The arithmetic of numpy's [float64]: IEEE 754 binary64, rounding to
    nearest even.  [a ** 2] is taken as [a * a], which is what [pow]
    returns whenever the product is exact, infinite or [nan]. *)
#[global]
Instance binary64 : Generic.Arith float := {|
  Generic.of_int := float_of_int;
  Generic.add := PrimFloat.add;
  Generic.sub := PrimFloat.sub;
  Generic.mul := PrimFloat.mul;
  Generic.div := PrimFloat.div;
  Generic.sqr a := PrimFloat.mul a a;
  Generic.gtb a b := PrimFloat.ltb b a;
  Generic.np_sum := float_sum;
  Generic.default_alpha := 0x1.999999999999ap-4%float
|}.


(** The list [lo, lo + 1, ..., hi] of integers, increasing; empty when
    [hi < lo]. *)
Definition indices (lo hi : Z) : list Z :=
  map (fun i => (lo + Z.of_nat i)%Z) (seq 0 (Z.to_nat (hi + 1 - lo))).

(** The sum of [term k] for [k = lo .. hi] as a Python loop accumulates
    it: from the float of [0], adding the terms one by one in increasing
    order of [k]. *)
Definition accumulate {F : Type} {A : Generic.Arith F} (lo hi : Z)
  (term : Z -> F) : F :=
  fold_left (fun Q k => Generic.add Q (term k)) (indices lo hi)
            (Generic.of_int 0).

(** The sum of [term i] for [i = lo .. hi] as [np.sum] reduces the array
    of the terms, listed in increasing order of [i]. *)
Definition sigma {F : Type} {A : Generic.Arith F} (lo hi : Z)
  (term : Z -> F) : F :=
  Generic.np_sum (map term (indices lo hi)).

(** The element [x[i]] of an array ([0.0] out of range). *)
Definition item {F : Type} {A : Generic.Arith F} (x : list F) (i : Z) : F :=
  nth (Z.to_nat i) x (Generic.of_int 0).

(** The arithmetic mean: the sum of the elements over their number. *)
Definition arithmetic_mean {F : Type} {A : Generic.Arith F} (x : list F) : F :=
  Generic.div (sigma 0 (len x - 1) (item x)) (Generic.of_int (len x)).

(** The deviation of [x[i]] from the mean. *)
Definition deviation {F : Type} {A : Generic.Arith F} (x : list F) (i : Z) : F :=
  Generic.sub (item x i) (arithmetic_mean x).

(** The sum of the squared deviations, each the product of a deviation
    with itself. *)
Definition squared_deviations {F : Type} {A : Generic.Arith F} (x : list F) : F :=
  sigma 0 (len x - 1) (fun i => Generic.mul (deviation x i) (deviation x i)).

(** The numerator of the autocorrelation at lag [k]. *)
Definition lag_numerator {F : Type} {A : Generic.Arith F} (x : list F) (k : Z) : F :=
  if (k =? 0)%Z then squared_deviations x
  else sigma 0 (len x - 1 - k)
         (fun i => Generic.mul (deviation x i) (deviation x (i + k))).

(** The population variance: the sum of the squared deviations over [N]. *)
Definition population_variance {F : Type} {A : Generic.Arith F} (x : list F) : F :=
  Generic.div (squared_deviations x) (Generic.of_int (len x)).

(** What the loop of [lbqtest] leaves at index [i] of its three arrays,
    for the lag [lag] it met there. *)
Definition row_of {F : Type} {A : Generic.Arith F} (chi2_cdf chi2_ppf : F -> Z -> F)
  (findq : list F -> Z -> F -> result F) (x : list F) (alpha : F)
  (st : Generic.arrays) (i : nat) (lag : Z) : Prop :=
  let Qi := nth i (Generic.arrQ st) (Generic.of_int 0) in
  findq x lag Generic.default_alpha = Returns Qi /\
  nth i (Generic.arrpV st) (Generic.of_int 0) =
    Generic.sub (Generic.of_int 1) (chi2_cdf Qi lag) /\
  nth i (Generic.arrcV st) (Generic.of_int 0) =
    chi2_ppf (Generic.sub (Generic.of_int 1) alpha) lag.

(** The three arrays keep their shapes from [st] to [st']. *)
Definition shapes_kept {F : Type} (st st' : @Generic.arrays F) : Prop :=
  length (Generic.arrQ st') = length (Generic.arrQ st) /\
  length (Generic.arrpV st') = length (Generic.arrpV st) /\
  length (Generic.arrcV st') = length (Generic.arrcV st).

(** The three arrays keep their entries below index [i]. *)
Definition entries_kept {F : Type} (d : F) (i : nat) (st st' : @Generic.arrays F)
  : Prop :=
  forall j, (j < i)%nat ->
    nth j (Generic.arrQ st') d = nth j (Generic.arrQ st) d /\
    nth j (Generic.arrpV st') d = nth j (Generic.arrpV st) d /\
    nth j (Generic.arrcV st') d = nth j (Generic.arrcV st) d.

(** An arithmetic with a [nan]: it absorbs additions and multiplications,
    and the square of [0 / D] ([0] the empty sum) over the float of the
    integer [0] is [nan] whatever the denominator [D]. *)
Definition nan_laws {F : Type} (A : Generic.Arith F) (nan : F) : Prop :=
  (forall a, Generic.add nan a = nan) /\
  (forall a, Generic.add a nan = nan) /\
  (forall a, Generic.mul a nan = nan) /\
  (forall D, Generic.div (Generic.sqr (Generic.div (Generic.np_sum []) D))
               (Generic.of_int 0) = nan).

(** Two runs of the loop of [lbqtest], one on each record of arrays, end
    alike: with the same arrays, or with the same exception. *)
Definition same_run (g : result (@Generic.arrays num)) (s : result arrays) : Prop :=
  match g, s with
  | Returns g', Returns s' =>
      Generic.arrQ g' = arrQ s' /\ Generic.arrpV g' = arrpV s' /\
      Generic.arrcV g' = arrcV s'
  | Raises e, Raises e' => e = e'
  | _, _ => False
  end.

(** The three arrays have at least [n] entries. *)
Definition has_room {F : Type} (n : nat) (st : @Generic.arrays F) : Prop :=
  (n <= length (Generic.arrQ st))%nat /\ (n <= length (Generic.arrpV st))%nat /\
  (n <= length (Generic.arrcV st))%nat.

(** ** The formulas of the specification *)

(** A signal: a finite sequence of real numbers, as a [float64] array. *)
Definition signal (xs : list R) : array := map Fin xs.

(** [Sigma lo hi f] is the sum of [f i] for [i = lo .. hi] inclusive,
    accumulated in increasing order of [i]; it is [0] when [hi < lo]. *)
Definition Sigma (lo hi : Z) (f : Z -> R) : R :=
  fold_left (fun acc i => acc + f i) (range_from lo (Z.to_nat (hi + 1 - lo))) 0.

(** The element of index [i]. *)
Definition elt (xs : list R) (i : Z) : R := nth (Z.to_nat i) xs 0.

(** The arithmetic mean. *)
Definition mean (xs : list R) : R :=
  Sigma 0 (len xs - 1) (elt xs) / IZR (len xs).

(** The population variance (divisor [N]). *)
Definition popvar (xs : list R) : R :=
  Sigma 0 (len xs - 1) (fun i => (elt xs i - mean xs) ^ 2) / IZR (len xs).

(** The numerator of the autocorrelation at lag [k]. *)
Definition acf_num (xs : list R) (k : Z) : R :=
  if (k =? 0)%Z then
    Sigma 0 (len xs - 1) (fun i => (elt xs i - mean xs) ^ 2)
  else
    Sigma 0 (len xs - 1 - k)
      (fun i => (elt xs i - mean xs) * (elt xs (i + k) - mean xs)).

(** The denominator of the autocorrelation. *)
Definition acf_den (xs : list R) : R := IZR (len xs) * popvar xs.

(** The autocorrelation at lag [k]. *)
Definition acf (xs : list R) (k : Z) : R := acf_num xs k / acf_den xs.

(** [x + c], [c] a scalar *)
Definition shift (xs : list R) (c : R) : list R := map (fun a => a + c) xs.

(** [c * x], [c] a scalar *)
Definition scale (xs : list R) (c : R) : list R := map (fun a => c * a) xs.

(** The sum of the products of the elements of [d] that are [k] apart. *)
Definition lag_products_sum (d : list R) (k : Z) : R :=
  Sigma 0 (len d - 1 - k) (fun i => elt d i * elt d (i + k)).

(** [a > b] on [float64] values. *)
Definition ngt (a b : num) : Prop :=
  match a, b with
  | NaN, _ | _, NaN => False
  | Fin r, Fin s => s < r
  | PInf, PInf => False
  | PInf, _ => True
  | NInf, _ => False
  | Fin _, NInf => True
  | Fin _, PInf => False
  end.

(** The sum of a list of reals, left to right. *)
Definition Rsum (l : list R) : R := fold_left Rplus l 0.

(** ** Ranges and index sums *)

Lemma range_from_length (lo : Z) (n : nat) : length (range_from lo n) = n.
Proof.
  revert lo; induction n as [|n IH]; intros lo; simpl; [reflexivity|].
  now rewrite IH.
Qed.

Lemma nth_map_range {A : Type} (F : Z -> A) (n : nat) :
  forall (lo : Z) (i : nat) (d : A),
    (i < n)%nat -> nth i (map F (range_from lo n)) d = F (lo + Z.of_nat i)%Z.
Proof.
  induction n as [|n IH]; intros lo i d Hi; [lia|].
  destruct i as [|i]; simpl.
  - f_equal; lia.
  - rewrite IH by lia. f_equal; lia.
Qed.

Lemma range_from_app (n m : nat) :
  forall lo, range_from lo (n + m) =
             range_from lo n ++ range_from (lo + Z.of_nat n) m.
Proof.
  induction n as [|n IH]; intros lo; simpl.
  - f_equal; lia.
  - rewrite IH. do 3 f_equal. lia.
Qed.

Lemma fold_left_Rplus_map {A : Type} (F : A -> R) (l : list A) :
  forall a, fold_left (fun acc i => acc + F i) l a = fold_left Rplus (map F l) a.
Proof.
  induction l as [|i l IH]; intros a; simpl; [reflexivity|apply IH].
Qed.

Lemma fold_left_Rplus_acc (l : list R) :
  forall a, fold_left Rplus l a = a + fold_left Rplus l 0.
Proof.
  induction l as [|r l IH]; intros a; simpl.
  - ring.
  - rewrite IH, (IH (0 + r)). ring.
Qed.

Lemma Rsum_cons (r : R) (l : list R) : Rsum (r :: l) = r + Rsum l.
Proof.
  unfold Rsum; simpl. rewrite fold_left_Rplus_acc. ring.
Qed.

Lemma Rsum_app (l1 l2 : list R) : Rsum (l1 ++ l2) = Rsum l1 + Rsum l2.
Proof.
  induction l1 as [|r l1 IH]; simpl.
  - unfold Rsum at 2; simpl. ring.
  - rewrite !Rsum_cons, IH. ring.
Qed.

Lemma Sigma_Rsum (lo hi : Z) (F : Z -> R) :
  Sigma lo hi F = Rsum (map F (range_from lo (Z.to_nat (hi + 1 - lo)))).
Proof.
  unfold Sigma, Rsum. apply fold_left_Rplus_map.
Qed.

Lemma Sigma_ext (lo hi : Z) (F G : Z -> R) :
  (forall i, (lo <= i <= hi)%Z -> F i = G i) -> Sigma lo hi F = Sigma lo hi G.
Proof.
  intros H. rewrite !Sigma_Rsum. f_equal.
  apply nth_ext with (d := 0) (d' := 0).
  - now rewrite !length_map.
  - intros i Hi. rewrite length_map, range_from_length in Hi.
    rewrite !nth_map_range by assumption. apply H. lia.
Qed.

Lemma Sigma_empty (lo hi : Z) (F : Z -> R) : (hi < lo)%Z -> Sigma lo hi F = 0.
Proof.
  intros H. unfold Sigma.
  replace (Z.to_nat (hi + 1 - lo)) with O by lia. reflexivity.
Qed.

Lemma Sigma_last (lo hi : Z) (F : Z -> R) :
  (lo <= hi)%Z -> Sigma lo hi F = Sigma lo (hi - 1) F + F hi.
Proof.
  intros H. rewrite !Sigma_Rsum.
  replace (Z.to_nat (hi + 1 - lo)) with (Z.to_nat (hi - 1 + 1 - lo) + 1)%nat by lia.
  rewrite range_from_app, map_app, Rsum_app. simpl.
  rewrite Rsum_cons. unfold Rsum at 2; simpl.
  replace (lo + Z.of_nat (Z.to_nat (hi - 1 + 1 - lo)))%Z with hi by lia. ring.
Qed.

Lemma Sigma_nonneg (lo hi : Z) (F : Z -> R) :
  (forall i, (lo <= i <= hi)%Z -> 0 <= F i) -> 0 <= Sigma lo hi F.
Proof.
  intros H. destruct (Z_lt_le_dec hi lo) as [Hlt|Hle].
  - rewrite Sigma_empty by assumption. lra.
  - remember (Z.to_nat (hi - lo)) as n eqn:Hn.
    revert hi Hle Hn H. induction n as [|n IH]; intros hi Hle Hn H.
    + rewrite Sigma_last, Sigma_empty by lia.
      specialize (H hi ltac:(lia)). lra.
    + rewrite Sigma_last by lia.
      assert (0 <= Sigma lo (hi - 1) F) by (apply IH; [lia|lia|intros; apply H; lia]).
      specialize (H hi ltac:(lia)). lra.
Qed.

(** Terms that are zero beyond [mid] do not count. *)
Lemma Sigma_zero_tail (lo mid hi : Z) (F : Z -> R) :
  (lo - 1 <= mid <= hi)%Z ->
  (forall i, (mid < i <= hi)%Z -> F i = 0) ->
  Sigma lo mid F = Sigma lo hi F.
Proof.
  intros Hm. remember (Z.to_nat (hi - mid)) as n eqn:Hn.
  revert hi Hm Hn. induction n as [|n IH]; intros hi Hm Hn HF.
  - replace hi with mid by lia. reflexivity.
  - rewrite (Sigma_last lo hi) by lia.
    rewrite <- (IH (hi - 1)%Z) by (try lia; intros; apply HF; lia).
    rewrite (HF hi) by lia. ring.
Qed.

(** The elements of a signal, listed by index. *)
Lemma map_elt_range (xs : list R) : map (elt xs) (range_from 0 (length xs)) = xs.
Proof.
  apply nth_ext with (d := 0) (d' := 0).
  - now rewrite length_map, range_from_length.
  - intros i Hi. rewrite length_map, range_from_length in Hi.
    rewrite nth_map_range by assumption. unfold elt. f_equal; lia.
Qed.

Lemma Rsum_Sigma (xs : list R) : Rsum xs = Sigma 0 (len xs - 1) (elt xs).
Proof.
  rewrite Sigma_Rsum. unfold len.
  replace (Z.to_nat (Z.of_nat (length xs) - 1 + 1 - 0)) with (length xs) by lia.
  now rewrite map_elt_range.
Qed.

(** ** Arrays of finite values *)

Lemma ndiv_fin (r s : R) : s <> 0 -> ndiv (Fin r) (Fin s) = Fin (r / s).
Proof.
  intros Hs. simpl. destruct (Req_dec_T s 0) as [E|_]; [contradiction|reflexivity].
Qed.

Lemma ndiv_zero_zero : ndiv (Fin 0) (Fin 0) = NaN.
Proof.
  simpl. destruct (Req_dec_T 0 0) as [_|N]; [|now elim N].
  unfold Rsign.
  destruct (Rlt_dec 0 0) as [H|_]; [exfalso; lra|reflexivity].
Qed.

Lemma nadd_NaN_l (a : num) : nadd NaN a = NaN.
Proof. now destruct a. Qed.

Lemma nmul_NaN_r (a : num) : nmul a NaN = NaN.
Proof. now destruct a. Qed.

Lemma ndiv_NaN_l (a : num) : ndiv NaN a = NaN.
Proof. now destruct a. Qed.

Lemma ngtb_ngt (a b : num) : ngtb a b = true <-> ngt a b.
Proof.
  destruct a, b; simpl; try (split; [discriminate|contradiction]);
    try (split; [exact (fun _ => I)|reflexivity]).
  destruct (Rlt_dec r0 r); split; auto; discriminate.
Qed.

Lemma signal_length (xs : list R) : length (signal xs) = length xs.
Proof. apply length_map. Qed.

Lemma len_signal (xs : list R) : len (signal xs) = len xs.
Proof. unfold len. now rewrite signal_length. Qed.

Lemma fold_nadd_fin (l : list R) :
  forall a, fold_left nadd (map Fin l) (Fin a) = Fin (fold_left Rplus l a).
Proof.
  induction l as [|r l IH]; intros a; simpl; [reflexivity|apply IH].
Qed.

Lemma np_sum_signal (l : list R) : np_sum (signal l) = Fin (Rsum l).
Proof. apply fold_nadd_fin. Qed.

Lemma arr_sub_scalar_signal (l : list R) (m : R) :
  arr_sub_scalar (signal l) (Fin m) = signal (map (fun a => a - m) l).
Proof.
  unfold arr_sub_scalar, signal. rewrite !map_map. reflexivity.
Qed.

Lemma map2_nmul_signal (a b : list R) :
  map2 nmul (signal a) (signal b) = signal (map2 Rmult a b).
Proof.
  unfold map2, signal. revert b.
  induction a as [|r a IH]; intros [|s b]; simpl; try reflexivity.
  now rewrite IH.
Qed.

Lemma map2_length {A B C : Type} (f : A -> B -> C) (a : list A) (b : list B) :
  length a = length b -> length (map2 f a b) = length a.
Proof.
  intros H. unfold map2. rewrite length_map, length_combine, <- H.
  apply Nat.min_id.
Qed.

Lemma nth_map2 {A B C : Type} (f : A -> B -> C) (a : list A) (b : list B)
  (i : nat) (da : A) (db : B) (d : C) :
  length a = length b -> (i < length a)%nat ->
  nth i (map2 f a b) d = f (nth i a da) (nth i b db).
Proof.
  revert b i. induction a as [|x a IH]; intros [|y b] i Hl Hi;
    simpl in *; try lia.
  destruct i as [|i]; [reflexivity|].
  apply IH; lia.
Qed.

Lemma broadcast2_same {A B C : Type} (f : A -> B -> C) (a : list A) (b : list B) :
  length a = length b -> broadcast2 f a b = Returns (map2 f a b).
Proof.
  intros H. unfold broadcast2. now rewrite H, Nat.eqb_refl.
Qed.

Lemma arr_mul_signal (a b : list R) :
  length a = length b ->
  arr_mul (signal a) (signal b) = Returns (signal (map2 Rmult a b)).
Proof.
  intros H. unfold arr_mul.
  rewrite broadcast2_same by (now rewrite !signal_length).
  now rewrite map2_nmul_signal.
Qed.

(** ** Slices *)

Lemma firstn_signal (n : nat) (l : list R) :
  firstn n (signal l) = signal (firstn n l).
Proof. apply firstn_map. Qed.

Lemma skipn_signal (n : nat) (l : list R) :
  skipn n (signal l) = signal (skipn n l).
Proof. apply skipn_map. Qed.

(** For a lag other than [0] the two slices [x[:-k]] and [x[k:]] have the
    same shape, whatever the sign and the size of [k]. *)
Lemma slice_lengths {A : Type} (x : list A) (k : Z) :
  k <> 0%Z -> length (slice_to x (- k)) = length (slice_from x k).
Proof.
  intros Hk. unfold slice_to, slice_from, slice_bound, len.
  rewrite length_firstn, length_skipn.
  destruct (Z.ltb_spec (- k) 0), (Z.ltb_spec k 0); lia.
Qed.

Lemma slice_to_lag {A : Type} (x : list A) (k : Z) :
  (0 < k)%Z -> slice_to x (- k) = firstn (Z.to_nat (len x - k)) x.
Proof.
  intros H. unfold slice_to, slice_bound.
  destruct (Z.ltb_spec (- k) 0); [|lia]. f_equal. lia.
Qed.

Lemma slice_from_lag {A : Type} (x : list A) (k : Z) :
  (0 < k)%Z -> slice_from x k = skipn (Z.to_nat k) x.
Proof.
  intros H. unfold slice_from, slice_bound.
  destruct (Z.ltb_spec k 0); [lia|].
  destruct (Z_le_gt_dec k (len x)).
  - f_equal. lia.
  - rewrite !skipn_all2; unfold len in *; [reflexivity|lia|lia].
Qed.

(** ** The estimator on a signal *)

(** The products the estimator sums at lag [k]: the first [N - k]
    deviations against the last [N - k]. *)
Lemma lag_products (xs : list R) (g : R -> R) (k : nat) :
  (k <= length xs)%nat ->
  map2 Rmult (map g (firstn (length xs - k) xs)) (map g (skipn k xs)) =
  map (fun i => g (elt xs i) * g (elt xs (i + Z.of_nat k)))
      (range_from 0 (length xs - k)).
Proof.
  intros Hk.
  assert (Hlen : length (map g (firstn (length xs - k) xs)) =
                 length (map g (skipn k xs))).
  { rewrite !length_map, length_firstn, length_skipn. lia. }
  assert (Hfst : length (map g (firstn (length xs - k) xs)) = (length xs - k)%nat).
  { rewrite length_map, length_firstn. lia. }
  apply nth_ext with (d := 0) (d' := 0).
  - rewrite map2_length by assumption.
    now rewrite Hfst, length_map, range_from_length.
  - intros i Hi. rewrite map2_length, Hfst in Hi by assumption.
    rewrite (nth_map2 Rmult _ _ i (g 0) (g 0) 0) by first [exact Hlen | rewrite Hfst; exact Hi].
    rewrite !map_nth, nth_firstn, nth_skipn, nth_map_range by assumption.
    destruct (Nat.ltb_spec i (length xs - k)) as [_|Hge]; [|lia].
    unfold elt. do 3 f_equal; lia.
Qed.

Section Estimator.

Variable xs : list R.
Hypothesis nonempty : xs <> [].

Lemma len_pos : (0 < len xs)%Z.
Proof.
  unfold len. destruct xs; [now elim nonempty|simpl; lia].
Qed.

Lemma IZR_len_neq_0 : IZR (len xs) <> 0.
Proof.
  pose proof len_pos. apply not_0_IZR. lia.
Qed.

Lemma np_mean_signal : np_mean (signal xs) = Fin (mean xs).
Proof.
  unfold np_mean. rewrite np_sum_signal, len_signal.
  rewrite ndiv_fin by apply IZR_len_neq_0.
  unfold mean. now rewrite Rsum_Sigma.
Qed.

(** The sum of squared deviations, as the code computes it and as the
    specification writes it. *)
Lemma squares_Sigma :
  Rsum (map2 Rmult (map (fun a => a - mean xs) xs) (map (fun a => a - mean xs) xs)) =
  Sigma 0 (len xs - 1) (fun i => (elt xs i - mean xs) ^ 2).
Proof.
  pose proof (lag_products xs (fun a => a - mean xs) 0 ltac:(lia)) as H.
  rewrite Nat.sub_0_r, firstn_all in H. simpl skipn in H. rewrite H.
  rewrite Sigma_Rsum. unfold len.
  replace (Z.to_nat (Z.of_nat (length xs) - 1 + 1 - 0)) with (length xs) by lia.
  f_equal. apply map_ext. intros i. rewrite Z.add_0_r. ring.
Qed.

Lemma np_var_signal : np_var (signal xs) = Fin (popvar xs).
Proof.
  unfold np_var. rewrite np_mean_signal, arr_sub_scalar_signal.
  rewrite map2_nmul_signal, np_sum_signal, len_signal.
  rewrite ndiv_fin by apply IZR_len_neq_0.
  now rewrite squares_Sigma.
Qed.

(** The numerator the code computes at a lag [0 <= k < N]. *)
Lemma sac_numerator (k : Z) :
  (0 <= k < len xs)%Z ->
  (if (k =? 0)%Z then
     p <- arr_mul (arr_sub_scalar (signal xs) (Fin (mean xs)))
                  (arr_sub_scalar (signal xs) (Fin (mean xs))) ;;
     Returns (np_sum p)
   else
     p <- arr_mul (arr_sub_scalar (slice_to (signal xs) (- k)) (Fin (mean xs)))
                  (arr_sub_scalar (slice_from (signal xs) k) (Fin (mean xs))) ;;
     Returns (np_sum p)) = Returns (Fin (acf_num xs k)).
Proof.
  intros Hk. unfold acf_num.
  destruct (Z.eqb_spec k 0) as [->|Hk0].
  - rewrite arr_sub_scalar_signal, arr_mul_signal by reflexivity. simpl.
    now rewrite np_sum_signal, squares_Sigma.
  - rewrite slice_to_lag, slice_from_lag by lia.
    rewrite len_signal, firstn_signal, skipn_signal, !arr_sub_scalar_signal.
    replace (Z.to_nat (len xs - k)) with (length xs - Z.to_nat k)%nat
      by (unfold len; lia).
    rewrite arr_mul_signal
      by (rewrite !length_map, length_firstn, length_skipn; unfold len in Hk; lia).
    simpl. rewrite np_sum_signal.
    rewrite lag_products by (unfold len in Hk; lia).
    rewrite Sigma_Rsum.
    replace (Z.to_nat (len xs - 1 - k + 1 - 0)) with (length xs - Z.to_nat k)%nat
      by (unfold len in *; lia).
    now rewrite Z2Nat.id by lia.
Qed.

End Estimator.

Lemma acf_den_neq_0 (xs : list R) : xs <> [] -> popvar xs <> 0 -> acf_den xs <> 0.
Proof.
  intros Hne Hv. unfold acf_den.
  apply Rmult_integral_contrapositive_currified; [now apply IZR_len_neq_0|exact Hv].
Qed.

Lemma sac_denominator (xs : list R) :
  xs <> [] ->
  nmul (Fin (IZR (len (signal xs)))) (np_var (signal xs)) = Fin (acf_den xs).
Proof.
  intros Hne. now rewrite np_var_signal, len_signal.
Qed.

(** The estimator on a signal of nonzero variance, at a lag within the
    signal. *)
Lemma sac_signal (xs : list R) (k : Z) :
  xs <> [] -> popvar xs <> 0 -> (0 <= k < len xs)%Z ->
  sac (signal xs) k = Returns (Fin (acf xs k)).
Proof.
  intros Hne Hv Hk. unfold sac; cbv zeta.
  rewrite np_mean_signal by assumption.
  rewrite sac_numerator by assumption. cbn [bind].
  rewrite sac_denominator by assumption.
  now rewrite ndiv_fin by (now apply acf_den_neq_0).
Qed.

(** The sum of squared deviations is the denominator. *)
Lemma acf_num_0 (xs : list R) : xs <> [] -> acf_num xs 0 = acf_den xs.
Proof.
  intros Hne. unfold acf_num, acf_den, popvar. simpl Z.eqb. cbv iota.
  pose proof (IZR_len_neq_0 xs Hne). field. assumption.
Qed.

(** ** Shifting a signal by a constant *)

Lemma shift_length (xs : list R) (c : R) : length (shift xs c) = length xs.
Proof. apply length_map. Qed.

Lemma len_shift (xs : list R) (c : R) : len (shift xs c) = len xs.
Proof. unfold len. now rewrite shift_length. Qed.

Lemma elt_shift (xs : list R) (c : R) (i : Z) :
  (0 <= i < len xs)%Z -> elt (shift xs c) i = elt xs i + c.
Proof.
  intros Hi. unfold elt, shift.
  rewrite (nth_indep _ 0 (0 + c)) by (rewrite length_map; unfold len in Hi; lia).
  apply (map_nth (fun a => a + c)).
Qed.

Lemma Rsum_shift (xs : list R) (c : R) :
  Rsum (shift xs c) = Rsum xs + IZR (len xs) * c.
Proof.
  induction xs as [|a xs IH].
  - unfold Rsum, len; simpl. ring.
  - change (shift (a :: xs) c) with ((a + c) :: shift xs c).
    rewrite !Rsum_cons, IH. unfold len. simpl length.
    rewrite Nat2Z.inj_succ, succ_IZR. ring.
Qed.

Lemma mean_shift (xs : list R) (c : R) :
  xs <> [] -> mean (shift xs c) = mean xs + c.
Proof.
  intros Hne. unfold mean.
  rewrite <- !Rsum_Sigma, Rsum_shift, len_shift.
  pose proof (IZR_len_neq_0 xs Hne). field. assumption.
Qed.

Lemma acf_num_shift (xs : list R) (c : R) (k : Z) :
  xs <> [] -> (0 <= k)%Z -> acf_num (shift xs c) k = acf_num xs k.
Proof.
  intros Hne Hk. unfold acf_num. rewrite len_shift, mean_shift by assumption.
  destruct (k =? 0)%Z; apply Sigma_ext; intros i Hi.
  - rewrite elt_shift by lia. ring.
  - rewrite !elt_shift by lia. ring.
Qed.

Lemma popvar_shift (xs : list R) (c : R) :
  xs <> [] -> popvar (shift xs c) = popvar xs.
Proof.
  intros Hne. unfold popvar. rewrite len_shift, mean_shift by assumption.
  f_equal. apply Sigma_ext; intros i Hi. rewrite elt_shift by lia. ring.
Qed.

Lemma shift_nonempty (xs : list R) (c : R) : xs <> [] -> shift xs c <> [].
Proof. destruct xs; [congruence|discriminate]. Qed.

(** ** Loops *)

Lemma for_each_app {A S : Type} (l1 l2 : list A) (body : A -> S -> result S) :
  forall s, for_each (l1 ++ l2) body s =
            s' <- for_each l1 body s ;; for_each l2 body s'.
Proof.
  induction l1 as [|a l1 IH]; intros s; simpl; [reflexivity|].
  destruct (body a s) as [s1|e]; simpl; [apply IH|reflexivity].
Qed.

(** A loop whose body never raises returns. *)
Lemma for_each_returns {A S : Type} (l : list A) (body : A -> S -> result S) :
  (forall a s, In a l -> exists s', body a s = Returns s') ->
  forall s, exists s', for_each l body s = Returns s'.
Proof.
  induction l as [|a l IH]; intros Hb s; simpl.
  - now exists s.
  - destruct (Hb a s (or_introl eq_refl)) as [s1 ->]. simpl.
    apply IH. intros b t Hin. apply Hb. now right.
Qed.

(** A loop that adds a finite term to a finite accumulator at every
    iteration computes the sum of the terms, in the order of the loop. *)
Lemma for_each_sum (l : list Z) (body : Z -> num -> result num) (t : Z -> R) :
  (forall k q, In k l -> body k (Fin q) = Returns (Fin (q + t k))) ->
  forall q0, for_each l body (Fin q0) =
             Returns (Fin (fold_left (fun acc k => acc + t k) l q0)).
Proof.
  induction l as [|k l IH]; intros Hb q0; simpl; [reflexivity|].
  rewrite Hb by now left. simpl.
  apply IH. intros j q Hin. apply Hb. now right.
Qed.

(** A loop that preserves a value of the state it has reached keeps it. *)
Lemma for_each_fixed {A S : Type} (l : list A) (body : A -> S -> result S) (s : S) :
  (forall a, In a l -> body a s = Returns s) -> for_each l body s = Returns s.
Proof.
  induction l as [|a l IH]; intros Hb; simpl; [reflexivity|].
  rewrite Hb by now left. simpl. apply IH. intros b Hin. apply Hb. now right.
Qed.

Lemma in_range_from (n : nat) :
  forall lo k, In k (range_from lo n) <-> (lo <= k < lo + Z.of_nat n)%Z.
Proof.
  induction n as [|n IH]; intros lo k; simpl.
  - split; [contradiction|lia].
  - rewrite IH. lia.
Qed.

Lemma in_py_range (lo hi k : Z) : In k (py_range lo hi) <-> (lo <= k < hi)%Z.
Proof.
  unfold py_range. rewrite in_range_from. lia.
Qed.

(** [range(lo, hi)] lists [lo .. hi - 1] in increasing order. *)
Lemma py_range_split (lo mid hi : Z) :
  (lo <= mid <= hi)%Z -> py_range lo hi = py_range lo mid ++ py_range mid hi.
Proof.
  intros H. unfold py_range.
  replace (Z.to_nat (hi - lo)) with (Z.to_nat (mid - lo) + Z.to_nat (hi - mid))%nat by lia.
  rewrite range_from_app. do 2 f_equal. lia.
Qed.

Lemma py_range_cons (lo hi : Z) :
  (lo < hi)%Z -> py_range lo hi = lo :: py_range (lo + 1) hi.
Proof.
  intros H. unfold py_range.
  replace (Z.to_nat (hi - lo)) with (S (Z.to_nat (hi - (lo + 1)))) by lia.
  reflexivity.
Qed.

(** ** The accumulators on a signal *)

Lemma nsqr_fin (r : R) : nsqr (Fin r) = Fin (r ^ 2).
Proof. unfold nsqr; simpl. f_equal. ring. Qed.

Lemma IZR_len_product (n : Z) : IZR (n * (n + 2)) = IZR n * (IZR n + 2).
Proof. now rewrite mult_IZR, plus_IZR. Qed.

(** The Ljung-Box statistic, for any function [r] that gives the
    estimator's results at the sub-lags of the loop. *)
Lemma ljungbox_sum (x : array) (lags : Z) (alpha : R) (r : Z -> R) :
  (lags < len x)%Z ->
  (forall k, (1 <= k <= lags)%Z -> sac x k = Returns (Fin (r k))) ->
  ljungbox x lags alpha =
  Returns (Fin (IZR (len x) * (IZR (len x) + 2) *
                Sigma 1 lags (fun k => r k ^ 2 / (IZR (len x) - IZR k)))).
Proof.
  intros Hl Hr. unfold ljungbox; cbv zeta.
  rewrite (for_each_sum _ _ (fun k => r k ^ 2 / (IZR (len x) - IZR k))).
  - cbn [bind nmul]. now rewrite IZR_len_product.
  - intros k q Hin. apply in_py_range in Hin.
    rewrite Hr by lia. cbn [bind]. rewrite nsqr_fin.
    rewrite ndiv_fin by (apply not_0_IZR; lia).
    now rewrite minus_IZR.
Qed.

(** The Box-Pierce statistic, likewise. *)
Lemma boxpierce_sum (x : array) (lags : Z) (alpha : R) (r : Z -> R) :
  (forall k, (1 <= k <= lags)%Z -> sac x k = Returns (Fin (r k))) ->
  boxpierce x lags alpha =
  Returns (Fin (IZR (len x) * Sigma 1 lags (fun k => r k ^ 2))).
Proof.
  intros Hr. unfold boxpierce; cbv zeta.
  rewrite (for_each_sum _ _ (fun k => r k ^ 2)).
  - reflexivity.
  - intros k q Hin. apply in_py_range in Hin.
    rewrite Hr by lia. cbn [bind]. now rewrite nsqr_fin.
Qed.

Lemma sac_signal_sublags (xs : list R) (lags : Z) :
  xs <> [] -> popvar xs <> 0 -> (lags < len xs)%Z ->
  forall k, (1 <= k <= lags)%Z -> sac (signal xs) k = Returns (Fin (acf xs k)).
Proof.
  intros Hne Hv Hl k Hk. apply sac_signal; [assumption|assumption|lia].
Qed.

(** ** No function of the module raises *)

Lemma arr_sub_scalar_length (a : array) (m : num) :
  length (arr_sub_scalar a m) = length a.
Proof. apply length_map. Qed.

Lemma sac_returns (x : array) (k : Z) : exists r, sac x k = Returns r.
Proof.
  unfold sac; cbv zeta. unfold arr_mul.
  destruct (k =? 0)%Z eqn:E.
  - rewrite broadcast2_same by reflexivity. cbn [bind]. eauto.
  - rewrite broadcast2_same
      by (rewrite !arr_sub_scalar_length; apply slice_lengths;
          now apply Z.eqb_neq).
    cbn [bind]. eauto.
Qed.

(** On a list of lags the estimator returns the scalar results, one per
    lag and in the order of the lags. *)
Lemma sac_seq_returns (x : array) (ks : list Z) :
  exists rs, sac_seq x ks = Returns rs /\
             Forall2 (fun k r => sac x k = Returns r) ks rs.
Proof.
  unfold sac_seq.
  assert (H : forall res0, exists rs,
             for_each ks (fun ki res => r <- sac x ki ;; Returns (res ++ [r])) res0 =
             Returns (res0 ++ rs) /\
             Forall2 (fun k r => sac x k = Returns r) ks rs).
  { induction ks as [|k ks IH]; intros res0.
    - exists []. simpl. rewrite app_nil_r. split; constructor.
    - destruct (sac_returns x k) as [r Hr]. simpl. rewrite Hr. cbn [bind].
      destruct (IH (res0 ++ [r])) as (rs & Hrun & Hall).
      exists (r :: rs). rewrite Hrun, <- app_assoc. split; [reflexivity|].
      now constructor. }
  destruct (H []) as (rs & -> & Hall). now exists rs.
Qed.

(** The first loop of the goal runs the estimator on [x] at every
    iteration: it returns a value, named [q]. *)
Ltac loop_returns x q :=
  match goal with
  | |- context [for_each ?l ?b ?s] =>
      let H := fresh "H" in
      assert (H : exists q', for_each l b s = Returns q')
        by (apply for_each_returns; intros k Q _;
            destruct (sac_returns x k) as [r ->]; cbn [bind]; eauto);
      destruct H as [q ->]
  end.

Lemma ljungbox_returns (x : array) (lags : Z) (alpha : R) :
  exists q, ljungbox x lags alpha = Returns q.
Proof.
  unfold ljungbox; cbv zeta.
  loop_returns x q. cbn [bind]. eauto.
Qed.

Lemma boxpierce_returns (x : array) (lags : Z) (alpha : R) :
  exists q, boxpierce x lags alpha = Returns q.
Proof.
  unfold boxpierce; cbv zeta.
  loop_returns x q. cbn [bind]. eauto.
Qed.

(** ** Lags at and beyond the length of the signal *)

(** At a lag [k >= N] both slices are empty: the numerator is the empty
    sum. *)
Lemma sac_beyond (xs : list R) (k : Z) :
  xs <> [] -> (len xs <= k)%Z ->
  sac (signal xs) k = Returns (ndiv (Fin 0) (Fin (acf_den xs))).
Proof.
  intros Hne Hk. pose proof (len_pos xs Hne) as Hpos.
  unfold sac; cbv zeta.
  destruct (Z.eqb_spec k 0) as [->|_]; [lia|].
  rewrite sac_denominator by assumption.
  rewrite slice_to_lag, slice_from_lag by lia.
  rewrite len_signal.
  replace (Z.to_nat (len xs - k)) with O by lia.
  rewrite skipn_all2 by (rewrite signal_length; unfold len in Hk; lia).
  cbn [firstn arr_sub_scalar map]. unfold arr_mul.
  now rewrite broadcast2_same by reflexivity.
Qed.

Lemma sac_beyond_nonzero_var (xs : list R) (k : Z) :
  xs <> [] -> popvar xs <> 0 -> (len xs <= k)%Z ->
  sac (signal xs) k = Returns (Fin 0).
Proof.
  intros Hne Hv Hk. rewrite sac_beyond by assumption.
  rewrite ndiv_fin by (now apply acf_den_neq_0).
  do 2 f_equal. unfold Rdiv. ring.
Qed.

(** The term of the Ljung-Box sum at [k = N] is [nan]: either the
    estimator is [nan] already (zero variance), or it is [0] and the term
    is [0 / 0]. *)
Lemma ljungbox_term_at_len (xs : list R) (Q : num) :
  xs <> [] ->
  r <- sac (signal xs) (len xs) ;;
  Returns (nadd Q (ndiv (nsqr r) (Fin (IZR (len (signal xs) - len xs))))) =
  Returns NaN.
Proof.
  intros Hne. rewrite sac_beyond by (assumption || lia). cbn [bind].
  rewrite len_signal, Z.sub_diag.
  assert (E : ndiv (nsqr (ndiv (Fin 0) (Fin (acf_den xs)))) (Fin 0) = NaN).
  { cbn [ndiv]. destruct (Req_dec_T (acf_den xs) 0) as [_|_].
    - unfold Rsign. destruct (Rlt_dec 0 0) as [H|_]; [exfalso; lra|].
      reflexivity.
    - rewrite nsqr_fin.
      replace ((0 / acf_den xs) ^ 2) with 0 by (unfold Rdiv; ring).
      apply ndiv_zero_zero. }
  rewrite E. now destruct Q.
Qed.

(** Once the accumulator is [nan], it stays [nan]. *)
Lemma ljungbox_loop_NaN (x : array) (l : list Z) :
  for_each l
    (fun k Q =>
       r <- sac x k ;;
       Returns (nadd Q (ndiv (nsqr r) (Fin (IZR (len x - k))))))
    NaN = Returns NaN.
Proof.
  apply for_each_fixed. intros k _.
  destruct (sac_returns x k) as [r ->]. cbn [bind]. now rewrite nadd_NaN_l.
Qed.

Lemma ljungbox_beyond (xs : list R) (maxLag : Z) (alpha : R) :
  xs <> [] -> (len xs <= maxLag)%Z ->
  ljungbox (signal xs) maxLag alpha = Returns NaN.
Proof.
  intros Hne Hk. pose proof (len_pos xs Hne) as Hpos.
  unfold ljungbox; cbv zeta.
  rewrite (py_range_split 1 (len xs) (maxLag + 1)) by lia.
  rewrite (py_range_cons (len xs)) by lia.
  rewrite for_each_app.
  loop_returns (signal xs) q.
  cbn [bind for_each].
  rewrite ljungbox_term_at_len by assumption. cbn [bind].
  rewrite ljungbox_loop_NaN. cbn [bind]. now rewrite nmul_NaN_r.
Qed.

(** The terms of the Box-Pierce sum at [k >= N] are [0]. *)
Lemma boxpierce_beyond (xs : list R) (maxLag : Z) (alpha : R) :
  xs <> [] -> popvar xs <> 0 -> (len xs <= maxLag)%Z ->
  boxpierce (signal xs) maxLag alpha = boxpierce (signal xs) (len xs - 1) alpha.
Proof.
  intros Hne Hv Hk. pose proof (len_pos xs Hne) as Hpos.
  set (r := fun k => if (k <? len xs)%Z then acf xs k else 0).
  rewrite !(boxpierce_sum _ _ _ r).
  - do 3 f_equal. symmetry. apply Sigma_zero_tail; [lia|].
    intros i Hi. unfold r. destruct (Z.ltb_spec i (len xs)); [lia|].
    simpl. ring.
  - intros k Hk1. unfold r. destruct (Z.ltb_spec k (len xs)); [|lia].
    apply sac_signal; [assumption|assumption|lia].
  - intros k Hk1. unfold r. destruct (Z.ltb_spec k (len xs)).
    + apply sac_signal; [assumption|assumption|lia].
    + now apply sac_beyond_nonzero_var.
Qed.

(** ** Array assignment *)

Lemma update_length (a : array) (v : num) :
  forall i, length (update a i v) = length a.
Proof.
  induction a as [|a0 a IH]; intros [|i]; simpl; auto.
Qed.

Lemma nth_update_eq (a : array) (v d : num) :
  forall i, (i < length a)%nat -> nth i (update a i v) d = v.
Proof.
  induction a as [|a0 a IH]; intros [|i] Hi; simpl in *; try lia; auto.
  apply IH. lia.
Qed.

Lemma nth_update_neq (a : array) (v d : num) :
  forall i j, i <> j -> nth j (update a i v) d = nth j a d.
Proof.
  induction a as [|a0 a IH]; intros [|i] [|j] Hij; simpl; try reflexivity.
  - lia.
  - apply IH. lia.
Qed.

Lemma setitem_in_range (a : array) (i : nat) (v : num) :
  (i < length a)%nat -> setitem a i v = Returns (update a i v).
Proof.
  intros Hi. unfold setitem.
  now destruct (Nat.ltb_spec i (length a)); [|lia].
Qed.

Lemma getitem_update (a : array) (i : nat) (v : num) :
  (i < length a)%nat -> getitem (update a i v) i = Returns v.
Proof.
  intros Hi. unfold getitem.
  rewrite (nth_error_nth' _ NaN) by now rewrite update_length.
  now rewrite nth_update_eq.
Qed.

Lemma np_zeros_length (n : nat) : length (np_zeros n) = n.
Proof. apply repeat_length. Qed.

(** ** The driver *)

Section DriverLoop.

Variable chi2_cdf : num -> Z -> num.
Variable chi2_ppf : num -> Z -> num.
Variable findq : array -> Z -> R -> result num.
Variable x : array.
Variable alpha : R.
Hypothesis findq_returns : forall lag, exists q, findq x lag alpha_default = Returns q.

(** One iteration: the three assignments at index [i]. *)
Lemma lbqtest_step_returns (i : nat) (lag : Z) (st : arrays) (q : num) :
  fits (S i) st -> findq x lag alpha_default = Returns q ->
  lbqtest_step chi2_cdf chi2_ppf findq x alpha (i, lag) st =
  Returns (mkArrays (update (arrQ st) i q)
                    (update (arrpV st) i (nsub (Fin 1) (chi2_cdf q lag)))
                    (update (arrcV st) i (chi2_ppf (Fin (1 - alpha)) lag))).
Proof.
  intros (HQ & HpV & HcV) Hq. unfold lbqtest_step. rewrite Hq. cbn [bind].
  rewrite setitem_in_range by lia. cbn [bind].
  rewrite getitem_update by lia. cbn [bind].
  rewrite !setitem_in_range by lia. reflexivity.
Qed.

(** The loop over [enumerate(lags)], started at index [i]: it returns,
    keeps the shapes and the entries below [i], and leaves at [i + j] the
    row of the [j]-th lag. *)
Lemma lbqtest_loop (lags : list Z) :
  forall (i : nat) (st : arrays),
    fits (i + length lags) st ->
    exists st',
      for_each (enumerate_from i lags)
        (lbqtest_step chi2_cdf chi2_ppf findq x alpha) st = Returns st' /\
      same_shape st st' /\ same_below i st st' /\
      forall j, (j < length lags)%nat ->
        row_at chi2_cdf chi2_ppf findq x alpha st' (i + j) (nth j lags 0%Z).
Proof.
  induction lags as [|lag lags IH]; intros i st Hfit.
  - exists st. simpl. repeat split; intros; simpl in *; lia.
  - destruct Hfit as (HQ & HpV & HcV). simpl length in *.
    destruct (findq_returns lag) as [q Hq].
    cbn [enumerate_from for_each].
    rewrite (lbqtest_step_returns i lag st q) by (unfold fits; (lia || assumption)).
    cbn [bind].
    match goal with |- context [for_each _ _ ?s] => set (st1 := s) end.
    destruct (IH (S i) st1) as (st' & Hrun & Hshape & Hbelow & Hrows).
    { unfold fits, st1; simpl. rewrite !update_length. lia. }
    exists st'. split; [exact Hrun|].
    destruct Hshape as (SQ & SpV & ScV). unfold st1 in SQ, SpV, ScV.
    simpl in SQ, SpV, ScV. rewrite update_length in SQ, SpV, ScV.
    split; [now repeat split|]. split.
    + intros j Hj. destruct (Hbelow j ltac:(lia)) as (BQ & BpV & BcV).
      unfold st1 in BQ, BpV, BcV. simpl in BQ, BpV, BcV.
      rewrite nth_update_neq in BQ, BpV, BcV by lia. now repeat split.
    + intros [|j] Hj.
      * rewrite Nat.add_0_r. simpl nth.
        destruct (Hbelow i ltac:(lia)) as (BQ & BpV & BcV).
        unfold st1 in BQ, BpV, BcV. simpl in BQ, BpV, BcV.
        rewrite nth_update_eq in BQ, BpV, BcV by lia.
        unfold row_at, row. rewrite BQ, BpV, BcV. now repeat split.
      * replace (i + S j)%nat with (S i + j)%nat by lia.
        apply Hrows. lia.
Qed.

End DriverLoop.

Lemma selected_returns (method : string) (x : array) (lag : Z) (alpha : R) :
  exists q, selected method x lag alpha = Returns q.
Proof.
  unfold selected. destruct (String.eqb method "lb");
    [apply ljungbox_returns|apply boxpierce_returns].
Qed.

(** The driver returns four arrays of the shape of [lags]; index by index
    they hold the rejection flag, the p-value, the statistic and the
    critical value of the lag at that index. *)
Lemma lbqtest_rows (chi2_cdf chi2_ppf : num -> Z -> num)
  (x : array) (lags : list Z) (alpha : R) (method : string) :
  exists h pV Q cV,
    lbqtest chi2_cdf chi2_ppf x lags alpha method = Returns (h, pV, Q, cV) /\
    (length h = length lags /\ length pV = length lags /\
     length Q = length lags /\ length cV = length lags) /\
    forall i, (i < length lags)%nat ->
      row chi2_cdf chi2_ppf (selected method) x alpha (nth i lags 0%Z)
          (nth i Q NaN) (nth i pV NaN) (nth i cV NaN) /\
      nth i h false = ngtb (nth i Q NaN) (nth i cV NaN).
Proof.
  unfold lbqtest; cbv zeta.
  set (st0 := mkArrays _ _ _).
  destruct (lbqtest_loop chi2_cdf chi2_ppf (selected method) x alpha
              (fun lag => selected_returns method x lag alpha_default)
              lags 0 st0)
    as (st' & Hrun & (SQ & SpV & ScV) & _ & Hrows).
  { unfold fits, st0; simpl. rewrite np_zeros_length. lia. }
  unfold st0 in SQ, SpV, ScV. simpl in SQ, SpV, ScV.
  rewrite np_zeros_length in SQ, SpV, ScV.
  unfold enumerate. rewrite Hrun. cbn [bind].
  rewrite broadcast2_same by congruence. cbn [bind].
  exists (map2 ngtb (arrQ st') (arrcV st')), (arrpV st'), (arrQ st'), (arrcV st').
  split; [reflexivity|]. split.
  - rewrite map2_length by congruence. now repeat split.
  - intros i Hi. split; [apply (Hrows i Hi)|].
    apply nth_map2; congruence || lia.
Qed.

(** * The properties *)

(** Concrete signals: unfold the formulas and compute the index sums. *)
Ltac compute_formulas :=
  unfold acf, acf_num, acf_den, popvar, mean, Sigma, elt, len; simpl.

(** ** The estimator *)

(** X18. In exact real arithmetic, on a non-empty signal [x] of length [N]
    and nonzero population variance, at a lag [0 <= k < N], [sac(x, k)]
    is the real number numerator over denominator, where the numerator is
    the sum of [(x_i - mean)^2] over [i = 0 .. N-1] when [k = 0] and the
    sum of [(x_i - mean) * (x_(i+k) - mean)] over [i = 0 .. N-1-k] when
    [k > 0], and the denominator is [N] times the population variance
    (divisor [N]). *)
Theorem sac_exact (xs : list R) (k : Z) :
  xs <> [] -> popvar xs <> 0 -> (0 <= k < len xs)%Z ->
  sac (signal xs) k = Returns (Fin (acf_num xs k / acf_den xs)) /\
  acf_num xs k =
    (if (k =? 0)%Z then
       Sigma 0 (len xs - 1) (fun i => (elt xs i - mean xs) ^ 2)
     else
       Sigma 0 (len xs - 1 - k)
         (fun i => (elt xs i - mean xs) * (elt xs (i + k) - mean xs))) /\
  acf_den xs = IZR (len xs) * popvar xs /\
  np_var (signal xs) = Fin (popvar xs).
Proof.
  intros Hne Hv Hk. split; [|split; [|split]].
  - now apply sac_signal.
  - reflexivity.
  - reflexivity.
  - now apply np_var_signal.
Qed.

Lemma sac_exact_witness :
  [1; 2; 4] <> [] /\ popvar [1; 2; 4] <> 0 /\ (0 <= 1 < len [1; 2; 4])%Z /\
  sac (signal [1; 2; 4]) 1 =
  Returns (Fin (acf_num [1; 2; 4] 1 / acf_den [1; 2; 4])).
Proof.
  assert (Hne : [1; 2; 4] <> []) by discriminate.
  assert (Hv : popvar [1; 2; 4] <> 0) by (compute_formulas; lra).
  assert (Hk : (0 <= 1 < len [1; 2; 4])%Z) by (unfold len; simpl; lia).
  repeat split; try assumption; try (unfold len; simpl; lia).
  exact (proj1 (sac_exact [1; 2; 4] 1 Hne Hv Hk)).
Defined.

(** C7. On a non-empty signal of nonzero population variance the
    autocorrelation at lag [0] is exactly [1]. *)
Theorem sac_lag_0 (xs : list R) :
  xs <> [] -> popvar xs <> 0 -> sac (signal xs) 0 = Returns (Fin 1).
Proof.
  intros Hne Hv.
  rewrite sac_signal by (assumption || (pose proof (len_pos xs Hne); lia)).
  unfold acf. rewrite acf_num_0 by assumption.
  do 2 f_equal. field. now apply acf_den_neq_0.
Qed.

Lemma sac_lag_0_witness :
  [1; 2; 4] <> [] /\ popvar [1; 2; 4] <> 0 /\
  sac (signal [1; 2; 4]) 0 = Returns (Fin 1).
Proof.
  assert (Hne : [1; 2; 4] <> []) by discriminate.
  assert (Hv : popvar [1; 2; 4] <> 0) by (compute_formulas; lra).
  repeat split; try assumption.
  exact (sac_lag_0 [1; 2; 4] Hne Hv).
Defined.

(** C8. On a non-empty signal [x] of nonzero population variance, for
    every real constant [c] and every lag [0 <= k < N], the estimator
    gives the same value on the shifted signal [x + c] as on [x]. *)
Theorem sac_shift (xs : list R) (c : R) (k : Z) :
  xs <> [] -> popvar xs <> 0 -> (0 <= k < len xs)%Z ->
  sac (signal (shift xs c)) k = sac (signal xs) k.
Proof.
  intros Hne Hv Hk.
  rewrite !sac_signal;
    rewrite ?len_shift, ?popvar_shift; auto using shift_nonempty.
  unfold acf, acf_den.
  now rewrite acf_num_shift, popvar_shift, len_shift by (assumption || lia).
Qed.

Lemma sac_shift_witness :
  [1; 2; 4] <> [] /\ popvar [1; 2; 4] <> 0 /\ (0 <= 1 < len [1; 2; 4])%Z /\
  sac (signal (shift [1; 2; 4] 5)) 1 = sac (signal [1; 2; 4]) 1.
Proof.
  assert (Hne : [1; 2; 4] <> []) by discriminate.
  assert (Hv : popvar [1; 2; 4] <> 0) by (compute_formulas; lra).
  assert (Hk : (0 <= 1 < len [1; 2; 4])%Z) by (unfold len; simpl; lia).
  repeat split; try assumption; try (unfold len; simpl; lia).
  exact (sac_shift [1; 2; 4] 5 1 Hne Hv Hk).
Defined.

(** The signal [1 .. 10] has autocorrelation [0.7] at lag [1]. *)
Example sac_linear :
  sac (signal [1; 2; 3; 4; 5; 6; 7; 8; 9; 10]) 1 = Returns (Fin (7 / 10)).
Proof.
  rewrite sac_signal.
  - do 2 f_equal. compute_formulas. field.
  - discriminate.
  - compute_formulas. lra.
  - unfold len; simpl; lia.
Qed.

(** An alternating signal has a negative autocorrelation at lag [1]. *)
Example sac_alternating :
  sac (signal [1; -1; 1; -1; 1; -1; 1; -1]) 1 = Returns (Fin (- 7 / 8)).
Proof.
  rewrite sac_signal.
  - do 2 f_equal. compute_formulas. field.
  - discriminate.
  - compute_formulas. lra.
  - unfold len; simpl; lia.
Qed.

(** On a constant signal the estimator returns [nan]. *)
Example sac_constant : sac (signal [3; 3]) 1 = Returns NaN.
Proof.
  unfold sac; cbv zeta.
  rewrite np_mean_signal, sac_numerator, sac_denominator
    by (discriminate || (unfold len; simpl; lia)).
  cbn [bind].
  replace (acf_num [3; 3] 1) with 0 by (compute_formulas; field).
  replace (acf_den [3; 3]) with 0 by (compute_formulas; field).
  now rewrite ndiv_zero_zero.
Qed.

(** ** The accumulators *)

(** X19. In exact real arithmetic, on a non-empty signal [x] of length [N]
    and nonzero population variance, for [1 <= lags < N], every sub-lag
    [k = 1 .. lags] has a real estimator result [r(k) = sac(x, k)], and
    [ljungbox(x, lags)] returns the real number [N (N + 2)] times the sum
    over [k = 1 .. lags] of [r(k)^2 / (N - k)]. *)
Theorem ljungbox_exact (xs : list R) (lags : Z) (alpha : R) :
  xs <> [] -> popvar xs <> 0 -> (1 <= lags < len xs)%Z ->
  exists r : Z -> R,
    (forall k, (1 <= k <= lags)%Z -> sac (signal xs) k = Returns (Fin (r k))) /\
    ljungbox (signal xs) lags alpha =
    Returns (Fin (IZR (len xs) * (IZR (len xs) + 2) *
                  Sigma 1 lags (fun k => r k ^ 2 / (IZR (len xs) - IZR k)))).
Proof.
  intros Hne Hv Hl. exists (acf xs).
  pose proof (sac_signal_sublags xs lags Hne Hv ltac:(lia)) as Hr.
  split; [exact Hr|].
  rewrite (ljungbox_sum (signal xs) lags alpha (acf xs));
    rewrite ?len_signal; (reflexivity || lia || exact Hr).
Qed.

Lemma ljungbox_exact_witness :
  [1; 2; 4] <> [] /\ popvar [1; 2; 4] <> 0 /\ (1 <= 2 < len [1; 2; 4])%Z /\
  exists r : Z -> R,
    (forall k, (1 <= k <= 2)%Z ->
       sac (signal [1; 2; 4]) k = Returns (Fin (r k))) /\
    ljungbox (signal [1; 2; 4]) 2 (1 / 10) =
    Returns (Fin (IZR (len [1; 2; 4]) * (IZR (len [1; 2; 4]) + 2) *
                  Sigma 1 2 (fun k => r k ^ 2 / (IZR (len [1; 2; 4]) - IZR k)))).
Proof.
  assert (Hne : [1; 2; 4] <> []) by discriminate.
  assert (Hv : popvar [1; 2; 4] <> 0) by (compute_formulas; lra).
  assert (Hl : (1 <= 2 < len [1; 2; 4])%Z) by (unfold len; simpl; lia).
  split; [exact Hne|]. split; [exact Hv|]. split; [exact Hl|].
  exact (ljungbox_exact [1; 2; 4] 2 (1 / 10) Hne Hv Hl).
Defined.

(** X20. In exact real arithmetic, under the same conditions,
    [boxpierce(x, lags)] returns the real number [N] times the sum over
    [k = 1 .. lags] of [r(k)^2], with the same estimator results
    [r(k) = sac(x, k)]. *)
Theorem boxpierce_exact (xs : list R) (lags : Z) (alpha : R) :
  xs <> [] -> popvar xs <> 0 -> (1 <= lags < len xs)%Z ->
  exists r : Z -> R,
    (forall k, (1 <= k <= lags)%Z -> sac (signal xs) k = Returns (Fin (r k))) /\
    boxpierce (signal xs) lags alpha =
    Returns (Fin (IZR (len xs) * Sigma 1 lags (fun k => r k ^ 2))).
Proof.
  intros Hne Hv Hl. exists (acf xs).
  pose proof (sac_signal_sublags xs lags Hne Hv ltac:(lia)) as Hr.
  split; [exact Hr|].
  rewrite (boxpierce_sum (signal xs) lags alpha (acf xs) Hr).
  now rewrite len_signal.
Qed.

Lemma boxpierce_exact_witness :
  [1; 2; 4] <> [] /\ popvar [1; 2; 4] <> 0 /\ (1 <= 2 < len [1; 2; 4])%Z /\
  exists r : Z -> R,
    (forall k, (1 <= k <= 2)%Z ->
       sac (signal [1; 2; 4]) k = Returns (Fin (r k))) /\
    boxpierce (signal [1; 2; 4]) 2 (1 / 10) =
    Returns (Fin (IZR (len [1; 2; 4]) * Sigma 1 2 (fun k => r k ^ 2))).
Proof.
  assert (Hne : [1; 2; 4] <> []) by discriminate.
  assert (Hv : popvar [1; 2; 4] <> 0) by (compute_formulas; lra).
  assert (Hl : (1 <= 2 < len [1; 2; 4])%Z) by (unfold len; simpl; lia).
  split; [exact Hne|]. split; [exact Hv|]. split; [exact Hl|].
  exact (boxpierce_exact [1; 2; 4] 2 (1 / 10) Hne Hv Hl).
Defined.



(** C10. The parameter [alpha] of [ljungbox] and [boxpierce] has no effect
    on their result: on every array and for every integer [lags], two
    values of [alpha] give the same outcome. *)
Theorem alpha_unused (x : array) (lags : Z) (a1 a2 : R) :
  ljungbox x lags a1 = ljungbox x lags a2 /\
  boxpierce x lags a1 = boxpierce x lags a2.
Proof.
  unfold ljungbox, boxpierce. split; reflexivity.
Qed.

(** ** Lags at or beyond the length of the signal *)

(** C6, as stated, fails: on the signal [[1; 2]] ([N = 2]) with
    [maxLag = 2] no function raises.  [ljungbox] returns [nan],
    [boxpierce] returns a value, and [sac] returns the [0] of the empty
    sum. *)
Lemma beyond_length_counterexample :
  ljungbox (signal [1; 2]) 2 (1 / 10) = Returns NaN /\
  (exists q, boxpierce (signal [1; 2]) 2 (1 / 10) = Returns q) /\
  sac (signal [1; 2]) 2 = Returns (Fin 0).
Proof.
  assert (Hne : [1; 2] <> []) by discriminate.
  assert (Hv : popvar [1; 2] <> 0) by (compute_formulas; lra).
  assert (Hl : (len [1; 2] <= 2)%Z) by (unfold len; simpl; lia).
  split; [|split].
  - now apply ljungbox_beyond.
  - apply boxpierce_returns.
  - now apply sac_beyond_nonzero_var.
Qed.

(** ** The driver *)

(** On a signal of nonzero variance and at a lag within it, either
    accumulator returns a real number. *)
Lemma selected_finite (method : string) (xs : list R) (lag : Z) (alpha : R) :
  popvar xs <> 0 -> (1 <= lag < len xs)%Z ->
  exists q, selected method (signal xs) lag alpha = Returns (Fin q).
Proof.
  intros Hv Hl.
  assert (Hne : xs <> []) by (intros ->; unfold len in Hl; simpl in Hl; lia).
  pose proof (sac_signal_sublags xs lag Hne Hv ltac:(lia)) as Hr.
  unfold selected. destruct (String.eqb method "lb"); eexists.
  - apply (ljungbox_sum (signal xs) lag alpha (acf xs));
      rewrite ?len_signal; (lia || exact Hr).
  - apply (boxpierce_sum (signal xs) lag alpha (acf xs) Hr).
Qed.

(** C5, as stated, fails: with the method ['xx'] the driver raises no
    error; it returns a value, the one it returns for ['bp']. *)
Lemma unsupported_method_counterexample :
  exists v,
    lbqtest (fun q _ => q) (fun p _ => p) (signal [1; 2; 4]) [1%Z] (1 / 10) "xx"
      = Returns v /\
    lbqtest (fun q _ => q) (fun p _ => p) (signal [1; 2; 4]) [1%Z] (1 / 10) "bp"
      = Returns v.
Proof.
  destruct (lbqtest_rows (fun q _ => q) (fun p _ => p) (signal [1; 2; 4])
              [1%Z] (1 / 10) "xx") as (h & pV & Q & cV & Hrun & _).
  exists (h, pV, Q, cV). split; [exact Hrun|].
  rewrite <- Hrun. reflexivity.
Qed.

(** C5, amended.  For every signal, lag sequence and [alpha], calling
    [lbqtest] with a method other than ['lb'] raises no error: it returns
    the result of the Box-Pierce method ['bp']. *)
Theorem unsupported_method_is_boxpierce (chi2_cdf chi2_ppf : num -> Z -> num)
  (x : array) (lags : list Z) (alpha : R) (method : string) :
  method <> "lb"%string ->
  exists v,
    lbqtest chi2_cdf chi2_ppf x lags alpha method = Returns v /\
    lbqtest chi2_cdf chi2_ppf x lags alpha "bp" = Returns v /\
    selected method = boxpierce.
Proof.
  intros Hm.
  assert (Hsel : selected method = boxpierce).
  { unfold selected. destruct (String.eqb_spec method "lb"); [contradiction|reflexivity]. }
  destruct (lbqtest_rows chi2_cdf chi2_ppf x lags alpha method)
    as (h & pV & Q & cV & Hrun & _).
  exists (h, pV, Q, cV). split; [exact Hrun|]. split; [|exact Hsel].
  rewrite <- Hrun. unfold lbqtest. now rewrite Hsel.
Qed.

Lemma unsupported_method_is_boxpierce_witness :
  "xx"%string <> "lb"%string /\
  exists v,
    lbqtest (fun q _ => q) (fun p _ => p) (signal [1; 2; 4]) [1%Z] (1 / 10) "xx"
      = Returns v /\
    lbqtest (fun q _ => q) (fun p _ => p) (signal [1; 2; 4]) [1%Z] (1 / 10) "bp"
      = Returns v /\
    selected "xx" = boxpierce.
Proof.
  assert (Hm : "xx"%string <> "lb"%string) by discriminate.
  split; [exact Hm|].
  exact (unsupported_method_is_boxpierce (fun q _ => q) (fun p _ => p)
           (signal [1; 2; 4]) [1%Z] (1 / 10) "xx" Hm).
Defined.

(** * Further properties of the code *)

(** ** Exceptions, list of lags, lags out of the usual range *)

(** X1. No function of the module raises, on any array (empty, or holding
    [nan] or infinities), any integer lag (negative, zero or beyond the
    length) and any method: the two slices of [sac] always have the same
    shape, and the driver indexes its arrays within their bounds.  The
    driver returns four arrays of the length of [lags]. *)
Theorem no_exception (chi2_cdf chi2_ppf : num -> Z -> num)
  (x : array) (k lags : Z) (ls : list Z) (alpha : R) (method : string) :
  (exists r, sac x k = Returns r) /\
  (exists q, ljungbox x lags alpha = Returns q) /\
  (exists q, boxpierce x lags alpha = Returns q) /\
  (exists h pV Q cV,
     lbqtest chi2_cdf chi2_ppf x ls alpha method = Returns (h, pV, Q, cV) /\
     length h = length ls /\ length pV = length ls /\
     length Q = length ls /\ length cV = length ls).
Proof.
  split; [apply sac_returns|].
  split; [apply ljungbox_returns|].
  split; [apply boxpierce_returns|].
  destruct (lbqtest_rows chi2_cdf chi2_ppf x ls alpha method)
    as (h & pV & Q & cV & Hrun & (Hh & HpV & HQ & HcV) & _).
  exists h, pV, Q, cV. now repeat split.
Qed.

(** X2. Called with a list of lags, [sac] returns one result per lag, in
    the order of the list, each the result of the scalar call. *)
Theorem sac_list_of_lags (x : array) (ks : list Z) :
  exists rs,
    sac_seq x ks = Returns rs /\ length rs = length ks /\
    forall i, (i < length ks)%nat ->
      sac x (nth i ks 0%Z) = Returns (nth i rs NaN).
Proof.
  destruct (sac_seq_returns x ks) as (rs & Hrun & Hall).
  exists rs. split; [exact Hrun|].
  clear Hrun. induction Hall as [|k r ks rs Hk Hall IH].
  - split; [reflexivity|]. intros i Hi. simpl in Hi. lia.
  - destruct IH as (Hlen & Hnth). split; [simpl; now rewrite Hlen|].
    intros [|i] Hi; simpl in *; [exact Hk|]. apply Hnth. lia.
Qed.

(** A negative lag wraps around. *)
Lemma sac_wraps (x : array) (k : Z) :
  (0 < k)%Z -> sac x (- k) = sac x (Z.max (len x - k) 0).
Proof.
  intros Hk. unfold sac; cbv zeta.
  destruct (Z.eqb_spec (- k) 0) as [E|_]; [lia|].
  assert (Hto : slice_to x (- - k) = firstn (Z.to_nat (Z.min k (len x))) x).
  { unfold slice_to, slice_bound.
    destruct (Z.ltb_spec (- - k) 0); [lia|]. do 2 f_equal. lia. }
  assert (Hfrom : slice_from x (- k) = skipn (Z.to_nat (Z.max (len x - k) 0)) x).
  { unfold slice_from, slice_bound.
    destruct (Z.ltb_spec (- k) 0); [|lia]. do 2 f_equal. lia. }
  rewrite Hto, Hfrom.
  destruct (Z.eqb_spec (Z.max (len x - k) 0) 0) as [E|E].
  - replace (Z.min k (len x)) with (len x) by lia. rewrite E.
    unfold len. now rewrite Nat2Z.id, firstn_all.
  - assert (Hlt : (k < len x)%Z) by lia.
    unfold slice_to, slice_from, slice_bound.
    destruct (Z.ltb_spec (- Z.max (len x - k) 0) 0); [|lia].
    destruct (Z.ltb_spec (Z.max (len x - k) 0) 0); [lia|].
    replace (Z.to_nat (Z.max (- Z.max (len x - k) 0 + len x) 0))
      with (Z.to_nat (Z.min k (len x))) by lia.
    replace (Z.to_nat (Z.min (Z.max (len x - k) 0) (len x)))
      with (Z.to_nat (Z.max (len x - k) 0)) by lia.
    reflexivity.
Qed.

(** X3. A negative lag is not rejected: [sac(x, -k)] pairs the first [k]
    values with the last [k], which is the autocorrelation at lag [N - k];
    for [k >= N] both slices are the whole array and the result is the one
    at lag [0]. *)
Theorem sac_negative_lag (x : array) (k : Z) :
  (0 < k)%Z ->
  ((k < len x)%Z -> sac x (- k) = sac x (len x - k)) /\
  ((len x <= k)%Z -> sac x (- k) = sac x 0).
Proof.
  intros Hk. split; intros H; rewrite sac_wraps by assumption; f_equal; lia.
Qed.

Lemma sac_negative_lag_witness :
  (0 < 1)%Z /\ sac (signal [1; 2; 4]) (- 1) = sac (signal [1; 2; 4]) 2.
Proof.
  split; [lia|].
  exact (proj1 (sac_negative_lag (signal [1; 2; 4]) 1 ltac:(lia))
           ltac:(unfold len; simpl; lia)).
Defined.

(** X4. With [lags <= 0] the loop of either accumulator does not run and
    the statistic is [0], on every array. *)
Theorem accumulators_without_lags (x : array) (lags : Z) (alpha : R) :
  (lags <= 0)%Z ->
  ljungbox x lags alpha = Returns (Fin 0) /\
  boxpierce x lags alpha = Returns (Fin 0).
Proof.
  intros Hl. unfold ljungbox, boxpierce, py_range; cbv zeta.
  replace (Z.to_nat (lags + 1 - 1)) with O by lia.
  cbn [range_from for_each bind nmul]. now rewrite !Rmult_0_r.
Qed.

Lemma accumulators_without_lags_witness :
  (0 <= 0)%Z /\ ljungbox (signal [1; 2; 4]) 0 (1 / 10) = Returns (Fin 0).
Proof.
  split; [lia|].
  exact (proj1 (accumulators_without_lags (signal [1; 2; 4]) 0 (1 / 10)
                  ltac:(lia))).
Defined.

(** ** More on index sums *)

Lemma Sigma_split (lo mid hi : Z) (F : Z -> R) :
  (lo - 1 <= mid <= hi)%Z ->
  Sigma lo hi F = Sigma lo mid F + Sigma (mid + 1) hi F.
Proof.
  intros H. rewrite !Sigma_Rsum.
  replace (Z.to_nat (hi + 1 - lo))
    with (Z.to_nat (mid + 1 - lo) + Z.to_nat (hi + 1 - (mid + 1)))%nat by lia.
  rewrite range_from_app, map_app, Rsum_app.
  do 4 f_equal. lia.
Qed.

Lemma Sigma_one (i : Z) (F : Z -> R) : Sigma i i F = F i.
Proof.
  unfold Sigma. replace (Z.to_nat (i + 1 - i)) with 1%nat by lia.
  simpl. ring.
Qed.

(** Two sums over the same range, related term by term. *)
Lemma Sigma_rel (P : R -> R -> Prop) (lo hi : Z) (F G : Z -> R) :
  P 0 0 ->
  (forall i a b, (lo <= i <= hi)%Z -> P a b -> P (a + F i) (b + G i)) ->
  P (Sigma lo hi F) (Sigma lo hi G).
Proof.
  intros H0 Hstep.
  assert (H : forall n hi', (hi' <= hi)%Z -> Z.to_nat (hi' + 1 - lo) = n ->
                            P (Sigma lo hi' F) (Sigma lo hi' G)).
  { induction n as [|n IH]; intros hi' Hle Hn.
    - unfold Sigma. now rewrite Hn.
    - rewrite !(Sigma_last lo hi') by lia.
      apply Hstep; [lia|]. apply IH; lia. }
  exact (H _ hi (Z.le_refl hi) eq_refl).
Qed.

Lemma Sigma_le (lo hi : Z) (F G : Z -> R) :
  (forall i, (lo <= i <= hi)%Z -> F i <= G i) -> Sigma lo hi F <= Sigma lo hi G.
Proof.
  intros H. apply (Sigma_rel Rle); [lra|].
  intros i a b Hi Hab. specialize (H i Hi). lra.
Qed.

Lemma Sigma_scal (lo hi : Z) (c : R) (F : Z -> R) :
  Sigma lo hi (fun i => c * F i) = c * Sigma lo hi F.
Proof.
  apply (Sigma_rel (fun a b => a = c * b)); [ring|].
  intros i a b _ ->. ring.
Qed.

Lemma Sigma_plus (lo hi : Z) (F G : Z -> R) :
  Sigma lo hi (fun i => F i + G i) = Sigma lo hi F + Sigma lo hi G.
Proof.
  rewrite !Sigma_Rsum.
  generalize (range_from lo (Z.to_nat (hi + 1 - lo))). intros l.
  induction l as [|i l IH]; simpl.
  - unfold Rsum; simpl. ring.
  - rewrite !Rsum_cons, IH. ring.
Qed.

Lemma Sigma_const (lo hi : Z) (c : R) :
  (lo - 1 <= hi)%Z -> Sigma lo hi (fun _ => c) = IZR (hi + 1 - lo) * c.
Proof.
  intros H. remember (Z.to_nat (hi + 1 - lo)) as n eqn:Hn.
  revert hi H Hn. induction n as [|n IH]; intros hi H Hn.
  - rewrite Sigma_empty by lia. replace (hi + 1 - lo)%Z with 0%Z by lia. ring.
  - rewrite Sigma_last, (IH (hi - 1)%Z) by lia.
    replace (hi + 1 - lo)%Z with ((hi - 1 + 1 - lo) + 1)%Z by lia.
    rewrite (plus_IZR _ 1). ring.
Qed.

Lemma Sigma_shift (lo hi k : Z) (F : Z -> R) :
  Sigma lo hi (fun i => F (i + k)%Z) = Sigma (lo + k) (hi + k) F.
Proof.
  rewrite !Sigma_Rsum.
  replace (Z.to_nat (hi + k + 1 - (lo + k))) with (Z.to_nat (hi + 1 - lo)) by lia.
  f_equal. apply nth_ext with (d := 0) (d' := 0).
  - now rewrite !length_map, !range_from_length.
  - intros i Hi. rewrite length_map, range_from_length in Hi.
    rewrite !nth_map_range by assumption. f_equal. lia.
Qed.

(** A sum of non-negative terms that is zero has only zero terms. *)
Lemma Sigma_nonneg_zero (lo hi : Z) (F : Z -> R) :
  (forall i, (lo <= i <= hi)%Z -> 0 <= F i) ->
  Sigma lo hi F = 0 ->
  forall i, (lo <= i <= hi)%Z -> F i = 0.
Proof.
  intros Hpos Hsum i Hi.
  rewrite (Sigma_split lo (i - 1) hi) in Hsum by lia.
  rewrite (Sigma_split (i - 1 + 1) i hi) in Hsum by lia.
  replace (i - 1 + 1)%Z with i in Hsum by lia. rewrite Sigma_one in Hsum.
  assert (0 <= Sigma lo (i - 1) F) by (apply Sigma_nonneg; intros; apply Hpos; lia).
  assert (0 <= Sigma (i + 1) hi F) by (apply Sigma_nonneg; intros; apply Hpos; lia).
  specialize (Hpos i Hi). lra.
Qed.

Lemma Sigma_zero (lo hi : Z) (F : Z -> R) :
  (forall i, (lo <= i <= hi)%Z -> F i = 0) -> Sigma lo hi F = 0.
Proof.
  intros H. apply (Sigma_rel (fun a _ => a = 0) lo hi F F); [reflexivity|].
  intros i a _ Hi ->. rewrite (H i Hi). ring.
Qed.

(** ** Degenerate signals: empty, or of zero variance *)

Lemma boxpierce_loop_NaN (x : array) (l : list Z) :
  for_each l (fun k Q => r <- sac x k ;; Returns (nadd Q (nsqr r))) NaN =
  Returns NaN.
Proof.
  apply for_each_fixed. intros k _.
  destruct (sac_returns x k) as [r ->]. cbn [bind]. now rewrite nadd_NaN_l.
Qed.

(** When the estimator is [nan] at lag [1], so are both statistics. *)
Lemma accumulators_NaN (x : array) (lags : Z) (alpha : R) :
  (1 <= lags)%Z -> sac x 1 = Returns NaN ->
  ljungbox x lags alpha = Returns NaN /\ boxpierce x lags alpha = Returns NaN.
Proof.
  intros Hl Hsac. unfold ljungbox, boxpierce; cbv zeta.
  rewrite (py_range_cons 1) by lia. cbn [for_each]. rewrite Hsac. cbn [bind].
  replace (nadd (Fin 0) (ndiv (nsqr NaN) (Fin (IZR (len x - 1))))) with NaN
    by reflexivity.
  replace (nadd (Fin 0) (nsqr NaN)) with NaN by reflexivity.
  rewrite ljungbox_loop_NaN, boxpierce_loop_NaN. cbn [bind].
  now rewrite !nmul_NaN_r.
Qed.

(** X5. On the empty array the estimator returns [nan] at every lag (the
    mean and the variance of no value are [nan]), and both statistics are
    [nan] for every [lags >= 1]. *)
Theorem empty_signal (k lags : Z) (alpha : R) :
  (1 <= lags)%Z ->
  sac [] k = Returns NaN /\
  ljungbox [] lags alpha = Returns NaN /\
  boxpierce [] lags alpha = Returns NaN.
Proof.
  intros Hl.
  assert (Hsac : forall j, sac [] j = Returns NaN).
  { intros j. unfold sac; cbv zeta.
    unfold slice_to, slice_from. rewrite firstn_nil, skipn_nil.
    assert (Hm : np_mean [] = NaN) by apply ndiv_zero_zero.
    assert (Hv : np_var [] = NaN) by apply ndiv_zero_zero.
    rewrite Hm, Hv. destruct (j =? 0)%Z; reflexivity. }
  split; [apply Hsac|]. apply accumulators_NaN; [assumption|apply Hsac].
Qed.

Lemma empty_signal_witness :
  (1 <= 3)%Z /\ ljungbox [] 3 (1 / 10) = Returns NaN.
Proof.
  split; [lia|].
  exact (proj1 (proj2 (empty_signal 0 3 (1 / 10) ltac:(lia)))).
Defined.

Section ZeroVariance.

Variable xs : list R.
Hypothesis nonempty : xs <> [].
Hypothesis zero_variance : popvar xs = 0.

(** Every value is the mean. *)
Lemma zero_deviation (i : Z) : (0 <= i < len xs)%Z -> elt xs i - mean xs = 0.
Proof.
  intros Hi. pose proof (IZR_len_neq_0 xs nonempty) as HN.
  assert (HS : Sigma 0 (len xs - 1) (fun i => (elt xs i - mean xs) ^ 2) = 0).
  { unfold popvar in zero_variance.
    apply Rmult_eq_compat_r with (r := IZR (len xs)) in zero_variance.
    rewrite Rmult_0_l in zero_variance. rewrite <- zero_variance.
    field. assumption. }
  pose proof (Sigma_nonneg_zero _ _ _
                (fun j _ => pow2_ge_0 (elt xs j - mean xs)) HS i ltac:(lia)) as H.
  simpl in H. apply Rmult_integral in H. destruct H as [H|H]; lra.
Qed.

Lemma zero_numerator (k : Z) : (0 <= k < len xs)%Z -> acf_num xs k = 0.
Proof.
  intros Hk. unfold acf_num.
  destruct (k =? 0)%Z; apply Sigma_zero; intros i Hi;
    rewrite zero_deviation by lia; ring.
Qed.

Lemma zero_denominator : acf_den xs = 0.
Proof. unfold acf_den. rewrite zero_variance. ring. Qed.

Lemma sac_zero_variance_in_range (k : Z) :
  (0 <= k < len xs)%Z -> sac (signal xs) k = Returns NaN.
Proof.
  intros Hk. unfold sac; cbv zeta.
  rewrite np_mean_signal, sac_numerator, sac_denominator by assumption.
  cbn [bind]. rewrite zero_numerator, zero_denominator by assumption.
  now rewrite ndiv_zero_zero.
Qed.

Lemma sac_zero_variance (k : Z) : sac (signal xs) k = Returns NaN.
Proof.
  pose proof (len_pos xs nonempty) as Hpos.
  destruct (Z_lt_le_dec k 0) as [Hneg|Hnn].
  - replace k with (- - k)%Z by lia. rewrite sac_wraps by lia.
    apply sac_zero_variance_in_range. rewrite len_signal. lia.
  - destruct (Z_lt_le_dec k (len xs)) as [Hlt|Hge].
    + apply sac_zero_variance_in_range. lia.
    + rewrite sac_beyond, zero_denominator by assumption.
      now rewrite ndiv_zero_zero.
Qed.

End ZeroVariance.

(** ** The range of the estimator *)

Lemma cross_term_bound (lo hi : Z) (F G : Z -> R) :
  - Sigma lo hi (fun i => F i ^ 2 + G i ^ 2) <= 2 * Sigma lo hi (fun i => F i * G i)
  <= Sigma lo hi (fun i => F i ^ 2 + G i ^ 2).
Proof.
  apply (Sigma_rel (fun a b => - b <= 2 * a <= b) lo hi
           (fun i => F i * G i) (fun i => F i ^ 2 + G i ^ 2)); [lra|].
  intros i a b _ Hab.
  pose proof (pow2_ge_0 (F i - G i)). pose proof (pow2_ge_0 (F i + G i)).
  nra.
Qed.

Lemma acf_bound (xs : list R) (k : Z) :
  xs <> [] -> popvar xs <> 0 -> (0 <= k < len xs)%Z -> -1 <= acf xs k <= 1.
Proof.
  intros Hne Hv Hk.
  pose proof (acf_den_neq_0 xs Hne Hv) as Hden.
  pose proof (acf_num_0 xs Hne) as HS. unfold acf_num in HS. simpl Z.eqb in HS.
  cbv iota in HS.
  set (d := fun i => elt xs i - mean xs) in *.
  set (sq := fun i => d i ^ 2).
  change (Sigma 0 (len xs - 1) sq = acf_den xs) in HS.
  assert (Hsq : forall lo hi, 0 <= Sigma lo hi sq)
    by (intros; apply Sigma_nonneg; intros; apply pow2_ge_0).
  assert (Hpos : 0 < acf_den xs) by (pose proof (Hsq 0%Z (len xs - 1)%Z); lra).
  assert (Hnum : - acf_den xs <= acf_num xs k <= acf_den xs).
  { unfold acf_num. destruct (Z.eqb_spec k 0) as [->|Hk0].
    - change (- acf_den xs <= Sigma 0 (len xs - 1) sq <= acf_den xs). lra.
    - change (- acf_den xs <=
              Sigma 0 (len xs - 1 - k) (fun i => d i * d (i + k)%Z) <= acf_den xs).
      pose proof (cross_term_bound 0 (len xs - 1 - k) d (fun i => d (i + k)%Z)) as Hc.
      cbv beta in Hc.
      rewrite (Sigma_plus 0 (len xs - 1 - k) (fun i => d i ^ 2)
                 (fun i => d (i + k)%Z ^ 2)) in Hc.
      change (fun i => d i ^ 2) with sq in Hc.
      change (fun i => d (i + k)%Z ^ 2) with (fun i => sq (i + k)%Z) in Hc.
      rewrite (Sigma_shift 0 (len xs - 1 - k) k sq) in Hc.
      replace (len xs - 1 - k + k)%Z with (len xs - 1)%Z in Hc by lia.
      pose proof (Sigma_split 0 (len xs - 1 - k) (len xs - 1) sq ltac:(lia)) as H1.
      pose proof (Sigma_split 0 (0 + k - 1) (len xs - 1) sq ltac:(lia)) as H2.
      replace (0 + k - 1 + 1)%Z with (0 + k)%Z in H2 by lia.
      pose proof (Hsq (len xs - 1 - k + 1)%Z (len xs - 1)%Z).
      pose proof (Hsq 0%Z (0 + k - 1)%Z).
      lra. }
  unfold acf. split.
  - apply Rmult_le_reg_r with (r := acf_den xs); [exact Hpos|].
    unfold Rdiv. rewrite Rmult_assoc, Rinv_l by exact Hden. lra.
  - apply Rmult_le_reg_r with (r := acf_den xs); [exact Hpos|].
    unfold Rdiv. rewrite Rmult_assoc, Rinv_l by exact Hden. lra.
Qed.

(** X7. On a non-empty signal of nonzero population variance, in exact
    arithmetic, the autocorrelation [sac(x, k)] at a lag [0 <= k < N] is a
    real number between [-1] and [1]. *)
Theorem sac_range (xs : list R) (k : Z) :
  xs <> [] -> popvar xs <> 0 -> (0 <= k < len xs)%Z ->
  exists r, sac (signal xs) k = Returns (Fin r) /\ -1 <= r <= 1.
Proof.
  intros Hne Hv Hk. exists (acf xs k).
  split; [now apply sac_signal|now apply acf_bound].
Qed.

Lemma sac_range_witness :
  [1; 2; 4] <> [] /\ popvar [1; 2; 4] <> 0 /\ (0 <= 1 < len [1; 2; 4])%Z /\
  exists r, sac (signal [1; 2; 4]) 1 = Returns (Fin r) /\ -1 <= r <= 1.
Proof.
  assert (Hne : [1; 2; 4] <> []) by discriminate.
  assert (Hv : popvar [1; 2; 4] <> 0) by (compute_formulas; lra).
  assert (Hk : (0 <= 1 < len [1; 2; 4])%Z) by (unfold len; simpl; lia).
  split; [exact Hne|]. split; [exact Hv|]. split; [exact Hk|].
  exact (sac_range [1; 2; 4] 1 Hne Hv Hk).
Defined.

(** ** Rescaling a signal *)

Lemma len_scale (xs : list R) (c : R) : len (scale xs c) = len xs.
Proof. unfold len, scale. now rewrite length_map. Qed.

Lemma elt_scale (xs : list R) (c : R) (i : Z) :
  elt (scale xs c) i = c * elt xs i.
Proof.
  unfold elt, scale. rewrite <- (map_nth (fun a => c * a)).
  f_equal. ring.
Qed.

Lemma mean_scale (xs : list R) (c : R) : mean (scale xs c) = c * mean xs.
Proof.
  unfold mean. rewrite len_scale.
  rewrite (Sigma_ext _ _ _ (fun i => c * elt xs i)) by (intros; apply elt_scale).
  rewrite Sigma_scal. unfold Rdiv. ring.
Qed.

Lemma acf_num_scale (xs : list R) (c : R) (k : Z) :
  acf_num (scale xs c) k = c ^ 2 * acf_num xs k.
Proof.
  unfold acf_num. rewrite len_scale, mean_scale.
  destruct (k =? 0)%Z; rewrite <- Sigma_scal; apply Sigma_ext; intros i _;
    rewrite !elt_scale; ring.
Qed.

Lemma popvar_scale (xs : list R) (c : R) : popvar (scale xs c) = c ^ 2 * popvar xs.
Proof.
  pose proof (acf_num_scale xs c 0) as H. unfold acf_num in H. simpl Z.eqb in H.
  cbv iota in H. unfold popvar. rewrite H, len_scale. unfold Rdiv. ring.
Qed.

Lemma scale_nonempty (xs : list R) (c : R) : xs <> [] -> scale xs c <> [].
Proof. destruct xs; [congruence|discriminate]. Qed.

Lemma popvar_scale_neq_0 (xs : list R) (c : R) :
  c <> 0 -> popvar xs <> 0 -> popvar (scale xs c) <> 0.
Proof.
  intros Hc Hv. rewrite popvar_scale.
  apply Rmult_integral_contrapositive_currified; [|exact Hv].
  now apply pow_nonzero.
Qed.

(** The autocorrelation of [c * x + b] is that of [x]. *)
Lemma acf_affine (xs : list R) (c b : R) (k : Z) :
  xs <> [] -> c <> 0 -> popvar xs <> 0 -> (0 <= k)%Z ->
  acf (shift (scale xs c) b) k = acf xs k.
Proof.
  intros Hne Hc Hv Hk. unfold acf, acf_den.
  rewrite acf_num_shift, popvar_shift, len_shift by auto using scale_nonempty.
  rewrite acf_num_scale, popvar_scale, len_scale.
  pose proof (IZR_len_neq_0 xs Hne). field. repeat split; assumption.
Qed.

Lemma sac_affine (xs : list R) (c b : R) (k : Z) :
  xs <> [] -> c <> 0 -> popvar xs <> 0 -> (0 <= k < len xs)%Z ->
  sac (signal (shift (scale xs c) b)) k = sac (signal xs) k.
Proof.
  intros Hne Hc Hv Hk.
  rewrite !sac_signal;
    rewrite ?len_shift, ?len_scale, ?popvar_shift;
    auto using shift_nonempty, scale_nonempty, popvar_scale_neq_0.
  now rewrite acf_affine by (assumption || lia).
Qed.

(** X8. On a non-empty signal of nonzero population variance, in exact
    arithmetic, the estimator does not depend on the unit of the signal:
    for every factor [c <> 0] and every lag [0 <= k < N],
    [sac(c * x, k) = sac(x, k)]. *)
Theorem sac_scale (xs : list R) (c : R) (k : Z) :
  xs <> [] -> c <> 0 -> popvar xs <> 0 -> (0 <= k < len xs)%Z ->
  sac (signal (scale xs c)) k = sac (signal xs) k.
Proof.
  intros Hne Hc Hv Hk.
  rewrite !sac_signal;
    rewrite ?len_scale; auto using scale_nonempty, popvar_scale_neq_0.
  unfold acf, acf_den. rewrite acf_num_scale, popvar_scale, len_scale.
  do 2 f_equal. pose proof (IZR_len_neq_0 xs Hne). field.
  repeat split; assumption.
Qed.

Lemma sac_scale_witness :
  [1; 2; 4] <> [] /\ -3 <> 0 /\ popvar [1; 2; 4] <> 0 /\
  (0 <= 1 < len [1; 2; 4])%Z /\
  sac (signal (scale [1; 2; 4] (-3))) 1 = sac (signal [1; 2; 4]) 1.
Proof.
  assert (Hne : [1; 2; 4] <> []) by discriminate.
  assert (Hc : -3 <> 0) by lra.
  assert (Hv : popvar [1; 2; 4] <> 0) by (compute_formulas; lra).
  assert (Hk : (0 <= 1 < len [1; 2; 4])%Z) by (unfold len; simpl; lia).
  split; [exact Hne|]. split; [exact Hc|]. split; [exact Hv|].
  split; [exact Hk|].
  exact (sac_scale [1; 2; 4] (-3) 1 Hne Hc Hv Hk).
Defined.

(** ** What the accumulators and the driver depend on *)

Lemma for_each_ext {A S : Type} (l : list A) (b1 b2 : A -> S -> result S) :
  (forall a s, In a l -> b1 a s = b2 a s) ->
  forall s, for_each l b1 s = for_each l b2 s.
Proof.
  induction l as [|a l IH]; intros H s; simpl; [reflexivity|].
  rewrite (H a s) by now left.
  destruct (b2 a s); simpl; [|reflexivity].
  apply IH. intros; apply H; now right.
Qed.

Lemma in_enumerate_from {A : Type} (l : list A) :
  forall i j a, In (j, a) (enumerate_from i l) -> In a l.
Proof.
  induction l as [|b l IH]; intros i j a H; simpl in *; [contradiction|].
  destruct H as [H|H]; [left; congruence|right; eauto].
Qed.

(** The statistics of two arrays of the same length agree when the
    estimator agrees on them at the sub-lags [1 .. lags]. *)
Lemma accumulators_congr (x y : array) (lags : Z) (alpha : R) :
  len x = len y ->
  (forall k, (1 <= k <= lags)%Z -> sac x k = sac y k) ->
  ljungbox x lags alpha = ljungbox y lags alpha /\
  boxpierce x lags alpha = boxpierce y lags alpha.
Proof.
  intros Hlen Hsac. unfold ljungbox, boxpierce; cbv zeta. rewrite Hlen.
  split; (erewrite for_each_ext; [reflexivity|]);
    intros k Q Hin; apply in_py_range in Hin; cbv beta;
    now rewrite Hsac by lia.
Qed.

(** The driver sees the signal through the selected accumulator only. *)
Lemma lbqtest_congr (chi2_cdf chi2_ppf : num -> Z -> num)
  (x y : array) (lags : list Z) (alpha : R) (method : string) :
  (forall lag, In lag lags ->
     selected method x lag alpha_default = selected method y lag alpha_default) ->
  lbqtest chi2_cdf chi2_ppf x lags alpha method =
  lbqtest chi2_cdf chi2_ppf y lags alpha method.
Proof.
  intros H. unfold lbqtest; cbv zeta.
  erewrite for_each_ext; [reflexivity|].
  intros [i lag] st Hin. apply in_enumerate_from in Hin.
  unfold lbqtest_step. now rewrite H.
Qed.

(** X9. On a non-empty signal [x] of nonzero population variance, in exact
    arithmetic, the tests do not depend on the unit or the origin of the
    signal: for [c <> 0] and any [b], [ljungbox] and [boxpierce] return on
    [c * x + b] what they return on [x] for [lags < N], and so does the
    driver for target lags below [N]. *)
Theorem tests_affine_invariant (chi2_cdf chi2_ppf : num -> Z -> num)
  (xs : list R) (c b : R) (lags : Z) (ls : list Z) (alpha : R)
  (method : string) :
  xs <> [] -> c <> 0 -> popvar xs <> 0 -> (lags < len xs)%Z ->
  Forall (fun lag => (lag < len xs)%Z) ls ->
  ljungbox (signal (shift (scale xs c) b)) lags alpha =
    ljungbox (signal xs) lags alpha /\
  boxpierce (signal (shift (scale xs c) b)) lags alpha =
    boxpierce (signal xs) lags alpha /\
  lbqtest chi2_cdf chi2_ppf (signal (shift (scale xs c) b)) ls alpha method =
    lbqtest chi2_cdf chi2_ppf (signal xs) ls alpha method.
Proof.
  intros Hne Hc Hv Hl Hls.
  assert (Hlen : len (signal (shift (scale xs c) b)) = len (signal xs))
    by now rewrite !len_signal, len_shift, len_scale.
  assert (Hacc : forall lag a, (lag < len xs)%Z ->
            ljungbox (signal (shift (scale xs c) b)) lag a =
              ljungbox (signal xs) lag a /\
            boxpierce (signal (shift (scale xs c) b)) lag a =
              boxpierce (signal xs) lag a).
  { intros lag a Hlag. apply accumulators_congr; [exact Hlen|].
    intros k Hk. apply sac_affine; (assumption || lia). }
  split; [now apply Hacc|]. split; [now apply Hacc|].
  apply lbqtest_congr. intros lag Hin.
  rewrite Forall_forall in Hls. specialize (Hls lag Hin).
  unfold selected. destruct (String.eqb method "lb"); now apply Hacc.
Qed.

Lemma tests_affine_invariant_witness :
  [1; 2; 4] <> [] /\ 9 / 5 <> 0 /\ popvar [1; 2; 4] <> 0 /\
  (2 < len [1; 2; 4])%Z /\
  Forall (fun lag => (lag < len [1; 2; 4])%Z) [2%Z; 1%Z] /\
  ljungbox (signal (shift (scale [1; 2; 4] (9 / 5)) 32)) 2 (1 / 10) =
    ljungbox (signal [1; 2; 4]) 2 (1 / 10).
Proof.
  assert (Hne : [1; 2; 4] <> []) by discriminate.
  assert (Hc : 9 / 5 <> 0) by lra.
  assert (Hv : popvar [1; 2; 4] <> 0) by (compute_formulas; lra).
  assert (Hl : (2 < len [1; 2; 4])%Z) by (unfold len; simpl; lia).
  assert (Hls : Forall (fun lag => (lag < len [1; 2; 4])%Z) [2%Z; 1%Z])
    by (repeat constructor; unfold len; simpl; lia).
  split; [exact Hne|]. split; [exact Hc|]. split; [exact Hv|].
  split; [exact Hl|]. split; [exact Hls|].
  exact (proj1 (tests_affine_invariant (fun q _ => q) (fun p _ => p)
                  [1; 2; 4] (9 / 5) 32 2 [2%Z; 1%Z] (1 / 10) "lb"
                  Hne Hc Hv Hl Hls)).
Defined.

(** ** Comparing the two statistics *)

Lemma accumulators_signal (xs : list R) (lags : Z) (alpha : R) :
  xs <> [] -> popvar xs <> 0 -> (lags < len xs)%Z ->
  ljungbox (signal xs) lags alpha =
    Returns (Fin (IZR (len xs) * (IZR (len xs) + 2) *
                  Sigma 1 lags (fun k => acf xs k ^ 2 / (IZR (len xs) - IZR k)))) /\
  boxpierce (signal xs) lags alpha =
    Returns (Fin (IZR (len xs) * Sigma 1 lags (fun k => acf xs k ^ 2))).
Proof.
  intros Hne Hv Hl.
  pose proof (sac_signal_sublags xs lags Hne Hv Hl) as Hr. split.
  - rewrite (ljungbox_sum (signal xs) lags alpha (acf xs));
      rewrite ?len_signal; (reflexivity || lia || exact Hr).
  - rewrite (boxpierce_sum (signal xs) lags alpha (acf xs) Hr).
    now rewrite len_signal.
Qed.

(** The weight of the Ljung-Box term at a sub-lag [1 <= k < N]. *)
Lemma ljungbox_weight (n k r : R) :
  1 <= k -> k < n -> 0 <= r ^ 2 / (n - k) /\ r ^ 2 <= (n + 2) * (r ^ 2 / (n - k)).
Proof.
  intros Hk Hn.
  assert (Hu : 0 <= r ^ 2 / (n - k)).
  { unfold Rdiv. apply Rmult_le_pos; [apply pow2_ge_0|].
    left. apply Rinv_0_lt_compat. lra. }
  split; [exact Hu|].
  replace (r ^ 2) with (r ^ 2 / (n - k) * (n - k)) at 1 by (field; lra).
  nra.
Qed.

Lemma boxpierce_le_ljungbox_values (xs : list R) (lags : Z) :
  xs <> [] -> (lags < len xs)%Z ->
  IZR (len xs) * Sigma 1 lags (fun k => acf xs k ^ 2) <=
  IZR (len xs) * (IZR (len xs) + 2) *
    Sigma 1 lags (fun k => acf xs k ^ 2 / (IZR (len xs) - IZR k)).
Proof.
  intros Hne Hl. pose proof (len_pos xs Hne) as Hpos.
  assert (HN : 0 < IZR (len xs)) by (apply IZR_lt; lia).
  rewrite Rmult_assoc. apply Rmult_le_compat_l; [lra|].
  rewrite <- (Sigma_scal 1 lags (IZR (len xs) + 2)).
  apply Sigma_le. intros k Hk.
  apply ljungbox_weight; [apply IZR_le|apply IZR_lt]; lia.
Qed.

(** X10. In exact real arithmetic, on a signal of nonzero population
    variance and for [lags < N], the Box-Pierce statistic is at most the
    Ljung-Box statistic. *)
Theorem boxpierce_le_ljungbox (xs : list R) (lags : Z) (alpha : R) :
  xs <> [] -> popvar xs <> 0 -> (lags < len xs)%Z ->
  exists qb ql,
    boxpierce (signal xs) lags alpha = Returns (Fin qb) /\
    ljungbox (signal xs) lags alpha = Returns (Fin ql) /\
    qb <= ql.
Proof.
  intros Hne Hv Hl.
  destruct (accumulators_signal xs lags alpha Hne Hv Hl) as (Hlb & Hbp).
  do 2 eexists. split; [exact Hbp|]. split; [exact Hlb|].
  now apply boxpierce_le_ljungbox_values.
Qed.

Lemma boxpierce_le_ljungbox_witness :
  [1; 2; 4] <> [] /\ popvar [1; 2; 4] <> 0 /\ (2 < len [1; 2; 4])%Z /\
  exists qb ql,
    boxpierce (signal [1; 2; 4]) 2 (1 / 10) = Returns (Fin qb) /\
    ljungbox (signal [1; 2; 4]) 2 (1 / 10) = Returns (Fin ql) /\
    qb <= ql.
Proof.
  assert (Hne : [1; 2; 4] <> []) by discriminate.
  assert (Hv : popvar [1; 2; 4] <> 0) by (compute_formulas; lra).
  assert (Hl : (2 < len [1; 2; 4])%Z) by (unfold len; simpl; lia).
  split; [exact Hne|]. split; [exact Hv|]. split; [exact Hl|].
  exact (boxpierce_le_ljungbox [1; 2; 4] 2 (1 / 10) Hne Hv Hl).
Defined.

(** X11. In exact real arithmetic, on a signal of nonzero population
    variance, both statistics are non-decreasing in [lags], below the
    length of the signal: a deeper test accumulates more evidence. *)
Theorem statistics_monotone (xs : list R) (lags1 lags2 : Z) (alpha : R) :
  xs <> [] -> popvar xs <> 0 -> (lags1 <= lags2 < len xs)%Z ->
  exists l1 l2 b1 b2,
    ljungbox (signal xs) lags1 alpha = Returns (Fin l1) /\
    ljungbox (signal xs) lags2 alpha = Returns (Fin l2) /\
    boxpierce (signal xs) lags1 alpha = Returns (Fin b1) /\
    boxpierce (signal xs) lags2 alpha = Returns (Fin b2) /\
    l1 <= l2 /\ b1 <= b2.
Proof.
  intros Hne Hv Hl. pose proof (len_pos xs Hne) as Hpos.
  assert (HN : 0 < IZR (len xs)) by (apply IZR_lt; lia).
  destruct (accumulators_signal xs lags1 alpha Hne Hv ltac:(lia)) as (Hlb1 & Hbp1).
  destruct (accumulators_signal xs lags2 alpha Hne Hv ltac:(lia)) as (Hlb2 & Hbp2).
  do 4 eexists. repeat (split; [eassumption|]).
  assert (Hmono : forall F, (forall k, (1 <= k <= lags2)%Z -> 0 <= F k) ->
                            Sigma 1 lags1 F <= Sigma 1 lags2 F).
  { intros F HF. destruct (Z_lt_le_dec lags1 0) as [Hneg|Hnn].
    - rewrite (Sigma_empty 1 lags1) by lia. now apply Sigma_nonneg.
    - rewrite (Sigma_split 1 lags1 lags2) by lia.
      assert (0 <= Sigma (lags1 + 1) lags2 F)
        by (apply Sigma_nonneg; intros; apply HF; lia).
      lra. }
  split.
  - apply Rmult_le_compat_l; [apply Rmult_le_pos; lra|].
    apply Hmono. intros k Hk.
    apply ljungbox_weight; [apply IZR_le|apply IZR_lt]; lia.
  - apply Rmult_le_compat_l; [lra|].
    apply Hmono. intros k Hk. apply pow2_ge_0.
Qed.

Lemma statistics_monotone_witness :
  [1; 2; 4] <> [] /\ popvar [1; 2; 4] <> 0 /\ (1 <= 2 < len [1; 2; 4])%Z /\
  exists l1 l2 b1 b2,
    ljungbox (signal [1; 2; 4]) 1 (1 / 10) = Returns (Fin l1) /\
    ljungbox (signal [1; 2; 4]) 2 (1 / 10) = Returns (Fin l2) /\
    boxpierce (signal [1; 2; 4]) 1 (1 / 10) = Returns (Fin b1) /\
    boxpierce (signal [1; 2; 4]) 2 (1 / 10) = Returns (Fin b2) /\
    l1 <= l2 /\ b1 <= b2.
Proof.
  assert (Hne : [1; 2; 4] <> []) by discriminate.
  assert (Hv : popvar [1; 2; 4] <> 0) by (compute_formulas; lra).
  assert (Hl : (1 <= 2 < len [1; 2; 4])%Z) by (unfold len; simpl; lia).
  split; [exact Hne|]. split; [exact Hv|]. split; [exact Hl|].
  exact (statistics_monotone [1; 2; 4] 1 2 (1 / 10) Hne Hv Hl).
Defined.

(** X12. In exact real arithmetic, on a signal of nonzero population
    variance and for [1 <= lags < N], the Box-Pierce statistic is at most
    [N * lags] and the Ljung-Box statistic at most [N * (N + 2) * lags]. *)
Theorem statistics_upper_bound (xs : list R) (lags : Z) (alpha : R) :
  xs <> [] -> popvar xs <> 0 -> (1 <= lags < len xs)%Z ->
  exists qb ql,
    boxpierce (signal xs) lags alpha = Returns (Fin qb) /\
    ljungbox (signal xs) lags alpha = Returns (Fin ql) /\
    qb <= IZR (len xs) * IZR lags /\
    ql <= IZR (len xs) * (IZR (len xs) + 2) * IZR lags.
Proof.
  intros Hne Hv Hl. pose proof (len_pos xs Hne) as Hpos.
  assert (HN : 0 < IZR (len xs)) by (apply IZR_lt; lia).
  destruct (accumulators_signal xs lags alpha Hne Hv ltac:(lia)) as (Hlb & Hbp).
  do 2 eexists. split; [exact Hbp|]. split; [exact Hlb|].
  assert (Hone : Sigma 1 lags (fun _ => 1) = IZR lags).
  { rewrite Sigma_const by lia. replace (lags + 1 - 1)%Z with lags by lia. ring. }
  assert (Hsq : forall k, (1 <= k <= lags)%Z -> acf xs k ^ 2 <= 1).
  { intros k Hk. pose proof (acf_bound xs k Hne Hv ltac:(lia)). nra. }
  split.
  - apply Rmult_le_compat_l; [lra|]. rewrite <- Hone.
    apply Sigma_le. exact Hsq.
  - apply Rmult_le_compat_l; [apply Rmult_le_pos; lra|]. rewrite <- Hone.
    apply Sigma_le. intros k Hk. specialize (Hsq k Hk).
    assert (1 <= IZR (len xs) - IZR k).
    { rewrite <- minus_IZR. apply IZR_le. lia. }
    pose proof (pow2_ge_0 (acf xs k)).
    apply Rmult_le_reg_r with (r := IZR (len xs) - IZR k); [lra|].
    unfold Rdiv. rewrite Rmult_assoc, Rinv_l by lra. nra.
Qed.

Lemma statistics_upper_bound_witness :
  [1; 2; 4] <> [] /\ popvar [1; 2; 4] <> 0 /\ (1 <= 2 < len [1; 2; 4])%Z /\
  exists qb ql,
    boxpierce (signal [1; 2; 4]) 2 (1 / 10) = Returns (Fin qb) /\
    ljungbox (signal [1; 2; 4]) 2 (1 / 10) = Returns (Fin ql) /\
    qb <= IZR (len [1; 2; 4]) * 2 /\
    ql <= IZR (len [1; 2; 4]) * (IZR (len [1; 2; 4]) + 2) * 2.
Proof.
  assert (Hne : [1; 2; 4] <> []) by discriminate.
  assert (Hv : popvar [1; 2; 4] <> 0) by (compute_formulas; lra).
  assert (Hl : (1 <= 2 < len [1; 2; 4])%Z) by (unfold len; simpl; lia).
  split; [exact Hne|]. split; [exact Hv|]. split; [exact Hl|].
  exact (statistics_upper_bound [1; 2; 4] 2 (1 / 10) Hne Hv Hl).
Defined.

(** ** The driver as a map over the lags *)

Lemma nth_map_in {A B : Type} (f : A -> B) (l : list A) (i : nat) (d : B) (d' : A) :
  (i < length l)%nat -> nth i (map f l) d = f (nth i l d').
Proof.
  intros Hi. rewrite (nth_indep _ d (f d')) by now rewrite length_map.
  apply map_nth.
Qed.

(** The statistic of each lag, as a function of the lag. *)
Lemma selected_function (method : string) (x : array) (alpha : R) :
  exists qf : Z -> num, forall lag, selected method x lag alpha = Returns (qf lag).
Proof.
  exists (fun lag => match selected method x lag alpha with
                     | Returns q => q
                     | Raises _ => NaN
                     end).
  intros lag. now destruct (selected_returns method x lag alpha) as [q ->].
Qed.

(** The loop over the three preallocated arrays computes, index by index,
    what a map over [lags] computes. *)
Lemma lbqtest_as_map (chi2_cdf chi2_ppf : num -> Z -> num)
  (x : array) (lags : list Z) (alpha : R) (method : string) (qf : Z -> num) :
  (forall lag, In lag lags ->
     selected method x lag alpha_default = Returns (qf lag)) ->
  lbqtest chi2_cdf chi2_ppf x lags alpha method =
  Returns (map (fun lag => ngtb (qf lag) (chi2_ppf (Fin (1 - alpha)) lag)) lags,
           map (fun lag => nsub (Fin 1) (chi2_cdf (qf lag) lag)) lags,
           map qf lags,
           map (fun lag => chi2_ppf (Fin (1 - alpha)) lag) lags).
Proof.
  intros Hqf.
  destruct (lbqtest_rows chi2_cdf chi2_ppf x lags alpha method)
    as (h & pV & Q & cV & Hrun & (Hh & HpV & HQ & HcV) & Hrows).
  rewrite Hrun.
  assert (Hrow : forall i, (i < length lags)%nat ->
            nth i Q NaN = qf (nth i lags 0%Z) /\
            nth i pV NaN = nsub (Fin 1) (chi2_cdf (qf (nth i lags 0%Z)) (nth i lags 0%Z)) /\
            nth i cV NaN = chi2_ppf (Fin (1 - alpha)) (nth i lags 0%Z) /\
            nth i h false =
              ngtb (qf (nth i lags 0%Z)) (chi2_ppf (Fin (1 - alpha)) (nth i lags 0%Z))).
  { intros i Hi. destruct (Hrows i Hi) as ((Hq & Hp & Hc) & Hhi).
    rewrite Hqf in Hq by now apply nth_In.
    injection Hq as Hq. rewrite Hhi, Hp, Hc, <- Hq. now repeat split. }
  assert (EQ : Q = map qf lags).
  { apply nth_ext with (d := NaN) (d' := NaN); [now rewrite length_map|].
    intros i Hi. rewrite (nth_map_in _ _ _ _ 0%Z) by lia. apply Hrow. lia. }
  assert (EpV : pV = map (fun lag => nsub (Fin 1) (chi2_cdf (qf lag) lag)) lags).
  { apply nth_ext with (d := NaN) (d' := NaN); [now rewrite length_map|].
    intros i Hi. rewrite (nth_map_in _ _ _ _ 0%Z) by lia. apply Hrow. lia. }
  assert (EcV : cV = map (fun lag => chi2_ppf (Fin (1 - alpha)) lag) lags).
  { apply nth_ext with (d := NaN) (d' := NaN); [now rewrite length_map|].
    intros i Hi. rewrite (nth_map_in _ _ _ _ 0%Z) by lia. apply Hrow. lia. }
  assert (Eh : h = map (fun lag => ngtb (qf lag) (chi2_ppf (Fin (1 - alpha)) lag)) lags).
  { apply nth_ext with (d := false) (d' := false); [now rewrite length_map|].
    intros i Hi. rewrite (nth_map_in _ _ _ _ 0%Z) by lia. apply Hrow. lia. }
  now rewrite EQ, EpV, EcV, Eh.
Qed.

(** X13. The driver treats the target lags one by one: on the
    concatenation of two lists of lags it returns, array by array, the
    concatenation of what it returns on each list, whatever the array, the
    lags and the method. *)
Theorem lbqtest_app (chi2_cdf chi2_ppf : num -> Z -> num)
  (x : array) (l1 l2 : list Z) (alpha : R) (method : string) :
  exists h1 pV1 Q1 cV1 h2 pV2 Q2 cV2,
    lbqtest chi2_cdf chi2_ppf x l1 alpha method = Returns (h1, pV1, Q1, cV1) /\
    lbqtest chi2_cdf chi2_ppf x l2 alpha method = Returns (h2, pV2, Q2, cV2) /\
    lbqtest chi2_cdf chi2_ppf x (l1 ++ l2) alpha method =
      Returns (h1 ++ h2, pV1 ++ pV2, Q1 ++ Q2, cV1 ++ cV2).
Proof.
  destruct (selected_function method x alpha_default) as [qf Hqf].
  do 8 eexists.
  split; [apply (lbqtest_as_map _ _ _ _ _ _ qf); intros; apply Hqf|].
  split; [apply (lbqtest_as_map _ _ _ _ _ _ qf); intros; apply Hqf|].
  rewrite (lbqtest_as_map _ _ _ _ _ _ qf) by (intros; apply Hqf).
  now rewrite !map_app.
Qed.

(** X14. The significance level [alpha] reaches the critical values and
    the rejection flags only: two calls that differ in [alpha] return the
    same statistics [Q] and the same p-values [pV]. *)
Theorem lbqtest_alpha (chi2_cdf chi2_ppf : num -> Z -> num)
  (x : array) (lags : list Z) (a1 a2 : R) (method : string) :
  exists h1 h2 pV Q cV1 cV2,
    lbqtest chi2_cdf chi2_ppf x lags a1 method = Returns (h1, pV, Q, cV1) /\
    lbqtest chi2_cdf chi2_ppf x lags a2 method = Returns (h2, pV, Q, cV2).
Proof.
  destruct (selected_function method x alpha_default) as [qf Hqf].
  do 6 eexists.
  split; apply (lbqtest_as_map _ _ _ _ _ _ qf); intros; apply Hqf.
Qed.

Lemma ngtb_mono (a b : R) (c : num) :
  a <= b -> ngtb (Fin a) c = true -> ngtb (Fin b) c = true.
Proof.
  intros Hab. destruct c as [s| | |]; simpl; try easy.
  destruct (Rlt_dec s a), (Rlt_dec s b); try easy. lra.
Qed.

(** X15. In exact real arithmetic, on a signal of nonzero population
    variance and for target lags below [N], the two methods use the same
    critical values, and wherever the Box-Pierce method rejects, the
    Ljung-Box method rejects too. *)
Theorem boxpierce_rejects_ljungbox_rejects (chi2_cdf chi2_ppf : num -> Z -> num)
  (xs : list R) (lags : list Z) (alpha : R) :
  xs <> [] -> popvar xs <> 0 ->
  Forall (fun lag => (lag < len xs)%Z) lags ->
  exists hb hl pVb pVl Qb Ql cV,
    lbqtest chi2_cdf chi2_ppf (signal xs) lags alpha "bp" =
      Returns (hb, pVb, Qb, cV) /\
    lbqtest chi2_cdf chi2_ppf (signal xs) lags alpha "lb" =
      Returns (hl, pVl, Ql, cV) /\
    forall i, nth i hb false = true -> nth i hl false = true.
Proof.
  intros Hne Hv Hlags. rewrite Forall_forall in Hlags.
  set (N := IZR (len xs)).
  set (qb := fun lag => Fin (N * Sigma 1 lag (fun k => acf xs k ^ 2))).
  set (ql := fun lag =>
         Fin (N * (N + 2) * Sigma 1 lag (fun k => acf xs k ^ 2 / (N - IZR k)))).
  do 7 eexists.
  split; [apply (lbqtest_as_map _ _ _ _ _ _ qb); intros lag Hin;
          apply (accumulators_signal xs lag alpha_default Hne Hv (Hlags lag Hin))|].
  split; [apply (lbqtest_as_map _ _ _ _ _ _ ql); intros lag Hin;
          apply (accumulators_signal xs lag alpha_default Hne Hv (Hlags lag Hin))|].
  intros i. destruct (Nat.lt_ge_cases i (length lags)) as [Hi|Hi].
  - rewrite !(nth_map_in _ _ _ _ 0%Z) by assumption.
    apply ngtb_mono. apply boxpierce_le_ljungbox_values; [assumption|].
    apply Hlags. now apply nth_In.
  - rewrite nth_overflow by now rewrite length_map. discriminate.
Qed.

Lemma boxpierce_rejects_ljungbox_rejects_witness :
  [1; 2; 4] <> [] /\ popvar [1; 2; 4] <> 0 /\
  Forall (fun lag => (lag < len [1; 2; 4])%Z) [2%Z; 1%Z] /\
  exists hb hl pVb pVl Qb Ql cV,
    lbqtest (fun q _ => q) (fun p _ => p) (signal [1; 2; 4]) [2%Z; 1%Z]
      (1 / 10) "bp" = Returns (hb, pVb, Qb, cV) /\
    lbqtest (fun q _ => q) (fun p _ => p) (signal [1; 2; 4]) [2%Z; 1%Z]
      (1 / 10) "lb" = Returns (hl, pVl, Ql, cV) /\
    forall i, nth i hb false = true -> nth i hl false = true.
Proof.
  assert (Hne : [1; 2; 4] <> []) by discriminate.
  assert (Hv : popvar [1; 2; 4] <> 0) by (compute_formulas; lra).
  assert (Hls : Forall (fun lag => (lag < len [1; 2; 4])%Z) [2%Z; 1%Z])
    by (repeat constructor; unfold len; simpl; lia).
  split; [exact Hne|]. split; [exact Hv|]. split; [exact Hls|].
  exact (boxpierce_rejects_ljungbox_rejects (fun q _ => q) (fun p _ => p)
           [1; 2; 4] [2%Z; 1%Z] (1 / 10) Hne Hv Hls).
Defined.

(** ** The autocorrelations of a signal add up to [-1/2] *)

Lemma elt_cons_0 (a : R) (l : list R) : elt (a :: l) 0 = a.
Proof. reflexivity. Qed.

Lemma elt_cons_succ (a : R) (l : list R) (i : Z) :
  (0 <= i)%Z -> elt (a :: l) (i + 1) = elt l i.
Proof.
  intros Hi. unfold elt.
  replace (Z.to_nat (i + 1)) with (S (Z.to_nat i)) by lia. reflexivity.
Qed.

Lemma len_cons {A : Type} (a : A) (l : list A) : len (a :: l) = (len l + 1)%Z.
Proof. unfold len. simpl length. lia. Qed.

Lemma len_nonneg {A : Type} (l : list A) : (0 <= len l)%Z.
Proof. unfold len. lia. Qed.

(** Adding a first element [a]: the new products are those of [a]. *)
Lemma lag_products_sum_cons (a : R) (l : list R) (k : Z) :
  (0 <= k <= len l)%Z ->
  lag_products_sum (a :: l) k = a * elt (a :: l) k + lag_products_sum l k.
Proof.
  intros Hk. unfold lag_products_sum. rewrite len_cons.
  rewrite (Sigma_split 0 0 (len l + 1 - 1 - k)) by lia.
  rewrite Sigma_one, elt_cons_0, Z.add_0_l. f_equal.
  replace (len l + 1 - 1 - k)%Z with (len l - 1 - k + 1)%Z by lia.
  rewrite <- (Sigma_shift 0 (len l - 1 - k) 1
                (fun i => elt (a :: l) i * elt (a :: l) (i + k))).
  apply Sigma_ext. intros i Hi. cbv beta.
  replace (i + 1 + k)%Z with (i + k + 1)%Z by lia.
  now rewrite !elt_cons_succ by lia.
Qed.

(** The square of a sum: the squares, and twice the products of the
    elements [k] apart for every [k >= 1]. *)
Lemma square_of_sum (d : list R) :
  Rsum d ^ 2 =
  lag_products_sum d 0 + 2 * Sigma 1 (len d - 1) (lag_products_sum d).
Proof.
  induction d as [|a l IH].
  - unfold lag_products_sum, Rsum, len. simpl length.
    rewrite !Sigma_empty by lia. simpl. ring.
  - pose proof (len_nonneg l) as Hl.
    rewrite Rsum_cons, len_cons.
    replace (len l + 1 - 1)%Z with (len l) by lia.
    rewrite (Sigma_ext 1 (len l) _
               (fun k => a * elt l (k - 1) + lag_products_sum l k)).
    2:{ intros k Hk. rewrite lag_products_sum_cons by lia. f_equal. f_equal.
        replace k with (k - 1 + 1)%Z at 1 by lia. apply elt_cons_succ. lia. }
    rewrite Sigma_plus, Sigma_scal.
    assert (Hsum : Sigma 1 (len l) (fun k => elt l (k - 1)) = Rsum l).
    { rewrite Rsum_Sigma.
      rewrite (Sigma_ext 1 (len l) _ (fun k => elt l (k + -1)))
        by (intros; f_equal; lia).
      rewrite (Sigma_shift 1 (len l) (-1) (elt l)).
      f_equal; lia. }
    assert (Htail : Sigma 1 (len l) (lag_products_sum l) =
                    Sigma 1 (len l - 1) (lag_products_sum l)).
    { destruct (Z.eq_dec (len l) 0) as [E|E].
      - rewrite E. now rewrite !Sigma_empty by lia.
      - symmetry. apply Sigma_zero_tail; [lia|].
        intros k Hk. unfold lag_products_sum. apply Sigma_empty. lia. }
    rewrite Hsum, Htail.
    rewrite lag_products_sum_cons, elt_cons_0 by lia.
    replace ((a + Rsum l) ^ 2) with (a * a + 2 * (a * Rsum l) + Rsum l ^ 2) by ring.
    rewrite IH. ring.
Qed.

Lemma deviations_sum (xs : list R) :
  xs <> [] -> Rsum (shift xs (- mean xs)) = 0.
Proof.
  intros Hne. rewrite Rsum_shift. unfold mean. rewrite <- Rsum_Sigma.
  pose proof (IZR_len_neq_0 xs Hne). field. assumption.
Qed.

Lemma deviations_products (xs : list R) (k : Z) :
  (0 <= k)%Z -> lag_products_sum (shift xs (- mean xs)) k = acf_num xs k.
Proof.
  intros Hk. unfold lag_products_sum, acf_num. rewrite len_shift.
  destruct (Z.eqb_spec k 0) as [->|Hk0].
  - rewrite Z.sub_0_r. apply Sigma_ext; intros i Hi.
    rewrite Z.add_0_r, elt_shift by lia. ring.
  - apply Sigma_ext; intros i Hi. rewrite !elt_shift by lia. ring.
Qed.

Lemma acf_sum (xs : list R) :
  xs <> [] -> popvar xs <> 0 -> Sigma 1 (len xs - 1) (acf xs) = - (1 / 2).
Proof.
  intros Hne Hv. pose proof (acf_den_neq_0 xs Hne Hv) as Hden.
  pose proof (square_of_sum (shift xs (- mean xs))) as H.
  rewrite deviations_sum, deviations_products, len_shift in H by (assumption || lia).
  rewrite (Sigma_ext 1 (len xs - 1) _ (acf_num xs)) in H
    by (intros; apply deviations_products; lia).
  rewrite acf_num_0 in H by assumption.
  unfold acf.
  rewrite (Sigma_ext 1 (len xs - 1) _ (fun k => / acf_den xs * acf_num xs k))
    by (intros; unfold Rdiv; ring).
  rewrite Sigma_scal.
  replace (Sigma 1 (len xs - 1) (acf_num xs)) with (- acf_den xs / 2) by lra.
  field. assumption.
Qed.

(** X16. On a non-empty signal of nonzero population variance, in exact
    arithmetic, the autocorrelations [sac(x, k)] at the lags
    [k = 1 .. N - 1] add up to [-1/2], whatever the signal: the deviations
    from the mean add up to zero. *)
Theorem sac_sum (xs : list R) :
  xs <> [] -> popvar xs <> 0 ->
  exists r : Z -> R,
    (forall k, (1 <= k <= len xs - 1)%Z ->
       sac (signal xs) k = Returns (Fin (r k))) /\
    Sigma 1 (len xs - 1) r = - (1 / 2).
Proof.
  intros Hne Hv. exists (acf xs). split; [|now apply acf_sum].
  intros k Hk. apply sac_signal; (assumption || lia).
Qed.

Lemma sac_sum_witness :
  [1; 2; 4] <> [] /\ popvar [1; 2; 4] <> 0 /\
  exists r : Z -> R,
    (forall k, (1 <= k <= len [1; 2; 4] - 1)%Z ->
       sac (signal [1; 2; 4]) k = Returns (Fin (r k))) /\
    Sigma 1 (len [1; 2; 4] - 1) r = - (1 / 2).
Proof.
  assert (Hne : [1; 2; 4] <> []) by discriminate.
  assert (Hv : popvar [1; 2; 4] <> 0) by (compute_formulas; lra).
  split; [exact Hne|]. split; [exact Hv|].
  exact (sac_sum [1; 2; 4] Hne Hv).
Defined.

(** ** Reversing a signal *)

Lemma Sigma_reverse (lo hi : Z) (F : Z -> R) :
  Sigma lo hi (fun i => F (lo + hi - i)%Z) = Sigma lo hi F.
Proof.
  remember (Z.to_nat (hi + 1 - lo)) as n eqn:Hn.
  revert hi F Hn. induction n as [|n IH]; intros hi F Hn.
  - now rewrite !Sigma_empty by lia.
  - rewrite Sigma_last by lia.
    replace (lo + hi - hi)%Z with lo by lia.
    rewrite (Sigma_ext lo (hi - 1) _ (fun i => F ((lo + (hi - 1) - i) + 1)%Z))
      by (intros; f_equal; lia).
    rewrite (IH (hi - 1)%Z (fun j => F (j + 1)%Z)) by lia.
    rewrite Sigma_shift.
    rewrite (Sigma_split lo lo hi F) by lia. rewrite Sigma_one.
    replace (hi - 1 + 1)%Z with hi by lia. ring.
Qed.

Lemma Rsum_rev (l : list R) : Rsum (rev l) = Rsum l.
Proof.
  induction l as [|a l IH]; [reflexivity|].
  simpl rev. rewrite Rsum_app, IH, !Rsum_cons. unfold Rsum at 2; simpl. ring.
Qed.

Lemma len_rev {A : Type} (l : list A) : len (rev l) = len l.
Proof. unfold len. now rewrite length_rev. Qed.

Lemma elt_rev (xs : list R) (i : Z) :
  (0 <= i < len xs)%Z -> elt (rev xs) i = elt xs (len xs - 1 - i).
Proof.
  intros Hi. unfold elt, len in *. rewrite rev_nth by lia. f_equal. lia.
Qed.

Lemma mean_rev (xs : list R) : mean (rev xs) = mean xs.
Proof.
  unfold mean. now rewrite <- !Rsum_Sigma, Rsum_rev, len_rev.
Qed.

Lemma acf_num_rev (xs : list R) (k : Z) :
  (0 <= k)%Z -> acf_num (rev xs) k = acf_num xs k.
Proof.
  intros Hk. unfold acf_num. rewrite len_rev, mean_rev.
  destruct (Z.eqb_spec k 0) as [->|Hk0].
  - rewrite <- (Sigma_reverse 0 (len xs - 1) (fun i => (elt xs i - mean xs) ^ 2)).
    apply Sigma_ext. intros i Hi. rewrite elt_rev by lia.
    now replace (0 + (len xs - 1) - i)%Z with (len xs - 1 - i)%Z by lia.
  - rewrite <- (Sigma_reverse 0 (len xs - 1 - k)
                  (fun i => (elt xs i - mean xs) * (elt xs (i + k) - mean xs))).
    apply Sigma_ext. intros i Hi. rewrite !elt_rev by lia.
    replace (len xs - 1 - (i + k))%Z with (0 + (len xs - 1 - k) - i)%Z by lia.
    replace (len xs - 1 - i)%Z with (0 + (len xs - 1 - k) - i + k)%Z by lia.
    apply Rmult_comm.
Qed.

Lemma popvar_rev (xs : list R) : popvar (rev xs) = popvar xs.
Proof.
  pose proof (acf_num_rev xs 0 ltac:(lia)) as H. unfold acf_num in H.
  simpl Z.eqb in H. cbv iota in H. unfold popvar. now rewrite H, len_rev.
Qed.

Lemma rev_nonempty {A : Type} (l : list A) : l <> [] -> rev l <> [].
Proof.
  intros Hne E. apply Hne. rewrite <- (rev_involutive l), E. reflexivity.
Qed.

Lemma sac_rev (xs : list R) (k : Z) :
  xs <> [] -> popvar xs <> 0 -> (0 <= k < len xs)%Z ->
  sac (signal (rev xs)) k = sac (signal xs) k.
Proof.
  intros Hne Hv Hk.
  rewrite !sac_signal;
    rewrite ?len_rev, ?popvar_rev; auto using rev_nonempty.
  unfold acf, acf_den.
  now rewrite acf_num_rev, popvar_rev, len_rev by lia.
Qed.

(** X17. On a non-empty signal of nonzero population variance, in exact
    arithmetic, the tests do not see the direction of time: on the
    reversed signal the estimator (at [0 <= k < N]), both statistics (for
    [lags < N]) and the driver (for target lags below [N]) return what
    they return on the signal. *)
Theorem tests_reversal_invariant (chi2_cdf chi2_ppf : num -> Z -> num)
  (xs : list R) (k lags : Z) (ls : list Z) (alpha : R) (method : string) :
  xs <> [] -> popvar xs <> 0 -> (0 <= k < len xs)%Z -> (lags < len xs)%Z ->
  Forall (fun lag => (lag < len xs)%Z) ls ->
  sac (signal (rev xs)) k = sac (signal xs) k /\
  ljungbox (signal (rev xs)) lags alpha = ljungbox (signal xs) lags alpha /\
  boxpierce (signal (rev xs)) lags alpha = boxpierce (signal xs) lags alpha /\
  lbqtest chi2_cdf chi2_ppf (signal (rev xs)) ls alpha method =
    lbqtest chi2_cdf chi2_ppf (signal xs) ls alpha method.
Proof.
  intros Hne Hv Hk Hl Hls.
  assert (Hlen : len (signal (rev xs)) = len (signal xs))
    by now rewrite !len_signal, len_rev.
  assert (Hacc : forall lag a, (lag < len xs)%Z ->
            ljungbox (signal (rev xs)) lag a = ljungbox (signal xs) lag a /\
            boxpierce (signal (rev xs)) lag a = boxpierce (signal xs) lag a).
  { intros lag a Hlag. apply accumulators_congr; [exact Hlen|].
    intros j Hj. apply sac_rev; (assumption || lia). }
  split; [now apply sac_rev|].
  split; [now apply Hacc|]. split; [now apply Hacc|].
  apply lbqtest_congr. intros lag Hin.
  rewrite Forall_forall in Hls. specialize (Hls lag Hin).
  unfold selected. destruct (String.eqb method "lb"); now apply Hacc.
Qed.

Lemma tests_reversal_invariant_witness :
  [1; 2; 4] <> [] /\ popvar [1; 2; 4] <> 0 /\ (0 <= 1 < len [1; 2; 4])%Z /\
  (2 < len [1; 2; 4])%Z /\
  Forall (fun lag => (lag < len [1; 2; 4])%Z) [2%Z; 1%Z] /\
  sac (signal (rev [1; 2; 4])) 1 = sac (signal [1; 2; 4]) 1.
Proof.
  assert (Hne : [1; 2; 4] <> []) by discriminate.
  assert (Hv : popvar [1; 2; 4] <> 0) by (compute_formulas; lra).
  assert (Hk : (0 <= 1 < len [1; 2; 4])%Z) by (unfold len; simpl; lia).
  assert (Hl : (2 < len [1; 2; 4])%Z) by (unfold len; simpl; lia).
  assert (Hls : Forall (fun lag => (lag < len [1; 2; 4])%Z) [2%Z; 1%Z])
    by (repeat constructor; unfold len; simpl; lia).
  split; [exact Hne|]. split; [exact Hv|]. split; [exact Hk|].
  split; [exact Hl|]. split; [exact Hls|].
  exact (proj1 (tests_reversal_invariant (fun q _ => q) (fun p _ => p)
                  [1; 2; 4] 1 2 [2%Z; 1%Z] (1 / 10) "lb" Hne Hv Hk Hl Hls)).
Defined.

(** * The program in any arithmetic *)

(** ** The exact arithmetic is an instance *)

Lemma exact_sac (x : array) (k : Z) : Generic.sac x k = sac x k.
Proof. reflexivity. Qed.

Lemma exact_ljungbox (x : array) (lags : Z) (alpha : R) :
  Generic.ljungbox x lags (Fin alpha) = ljungbox x lags alpha.
Proof. reflexivity. Qed.

Lemma exact_boxpierce (x : array) (lags : Z) (alpha : R) :
  Generic.boxpierce x lags (Fin alpha) = boxpierce x lags alpha.
Proof. reflexivity. Qed.

(** ** Lists of indices *)

Lemma indices_range (lo hi : Z) :
  indices lo hi = range_from lo (Z.to_nat (hi + 1 - lo)).
Proof.
  unfold indices. generalize (Z.to_nat (hi + 1 - lo)). intros n.
  revert lo. induction n as [|n IH]; intros lo; [reflexivity|].
  cbn [seq map range_from]. f_equal; [lia|].
  rewrite <- seq_shift, map_map, <- IH.
  apply map_ext. intros i. lia.
Qed.

Lemma py_range_indices (lags : Z) : py_range 1 (lags + 1) = indices 1 lags.
Proof. unfold py_range. now rewrite indices_range. Qed.

Lemma indices_length (lo hi : Z) :
  length (indices lo hi) = Z.to_nat (hi + 1 - lo).
Proof. unfold indices. now rewrite length_map, length_seq. Qed.

Lemma nth_map_indices {B : Type} (h : Z -> B) (lo hi : Z) (i : nat) (d : B) :
  (i < Z.to_nat (hi + 1 - lo))%nat ->
  nth i (map h (indices lo hi)) d = h (lo + Z.of_nat i)%Z.
Proof. intros Hi. rewrite indices_range. now apply nth_map_range. Qed.

Lemma for_each_fold {B S : Type} (l : list B) (body : B -> S -> result S)
  (step : S -> B -> S) :
  (forall b s, In b l -> body b s = Returns (step s b)) ->
  forall s, for_each l body s = Returns (fold_left step l s).
Proof.
  induction l as [|b l IH]; intros Hb s; simpl; [reflexivity|].
  rewrite Hb by now left. simpl. apply IH. intros; apply Hb; now right.
Qed.

Lemma map2_diag {B C D E : Type} (f : C -> D -> E) (g : B -> C) (h : B -> D)
  (l : list B) :
  map2 f (map g l) (map h l) = map (fun b => f (g b) (h b)) l.
Proof.
  unfold map2. induction l as [|b l IH]; simpl; [reflexivity|now rewrite IH].
Qed.

Section AnyArithmetic.

Context {F : Type} {A : Generic.Arith F}.

Lemma map_item_indices (x : list F) : map (item x) (indices 0 (len x - 1)) = x.
Proof.
  apply nth_ext with (d := Generic.of_int 0) (d' := Generic.of_int 0).
  - rewrite length_map, indices_length. unfold len. lia.
  - intros i Hi. rewrite length_map, indices_length in Hi.
    rewrite nth_map_indices by assumption. unfold item. f_equal. lia.
Qed.

Lemma np_mean_any (x : list F) : Generic.np_mean x = arithmetic_mean x.
Proof.
  unfold Generic.np_mean, arithmetic_mean, sigma. now rewrite map_item_indices.
Qed.

Lemma deviations_any (x : list F) :
  Generic.arr_sub_scalar x (arithmetic_mean x) =
  map (deviation x) (indices 0 (len x - 1)).
Proof.
  unfold Generic.arr_sub_scalar. rewrite <- (map_item_indices x) at 1.
  now rewrite map_map.
Qed.

Lemma squared_deviations_any (x : list F) :
  Generic.arr_mul (Generic.arr_sub_scalar x (arithmetic_mean x))
                  (Generic.arr_sub_scalar x (arithmetic_mean x)) =
  Returns (map (fun i => Generic.mul (deviation x i) (deviation x i))
               (indices 0 (len x - 1))).
Proof.
  unfold Generic.arr_mul. rewrite broadcast2_same by reflexivity.
  now rewrite deviations_any, map2_diag.
Qed.

Lemma np_var_any (x : list F) : Generic.np_var x = population_variance x.
Proof.
  unfold Generic.np_var; cbv zeta. rewrite np_mean_any, deviations_any, map2_diag.
  reflexivity.
Qed.

(** The products of the two slices of [sac], by index. *)
Lemma lag_products_any (g : F -> F) (x : list F) (k : nat) :
  (k <= length x)%nat ->
  map2 Generic.mul (map g (firstn (length x - k) x)) (map g (skipn k x)) =
  map (fun i => Generic.mul (g (item x i)) (g (item x (i + Z.of_nat k))))
      (indices 0 (len x - 1 - Z.of_nat k)).
Proof.
  intros Hk.
  assert (Hlen : length (map g (firstn (length x - k) x)) =
                 length (map g (skipn k x))).
  { rewrite !length_map, length_firstn, length_skipn. lia. }
  assert (Hfst : length (map g (firstn (length x - k) x)) = (length x - k)%nat).
  { rewrite length_map, length_firstn. lia. }
  assert (Hn : Z.to_nat (len x - 1 - Z.of_nat k + 1 - 0) = (length x - k)%nat)
    by (unfold len; lia).
  apply nth_ext with (d := Generic.of_int 0) (d' := Generic.of_int 0).
  - rewrite map2_length by assumption.
    now rewrite Hfst, length_map, indices_length, Hn.
  - intros i Hi. rewrite map2_length, Hfst in Hi by assumption.
    rewrite (nth_map2 Generic.mul _ _ i (g (Generic.of_int 0))
               (g (Generic.of_int 0)) (Generic.of_int 0))
      by first [exact Hlen | rewrite Hfst; exact Hi].
    rewrite !map_nth, nth_firstn, nth_skipn, nth_map_indices by lia.
    destruct (Nat.ltb_spec i (length x - k)) as [_|Hge]; [|lia].
    unfold item. do 3 f_equal; lia.
Qed.

Lemma sac_returns_any (x : list F) (k : Z) : exists r, Generic.sac x k = Returns r.
Proof.
  unfold Generic.sac; cbv zeta. unfold Generic.arr_mul.
  destruct (k =? 0)%Z eqn:E.
  - rewrite broadcast2_same by reflexivity. cbn [bind]. eauto.
  - rewrite broadcast2_same
      by (unfold Generic.arr_sub_scalar; rewrite !length_map;
          apply slice_lengths; now apply Z.eqb_neq).
    cbn [bind]. eauto.
Qed.

(** The results of the estimator on [x], as a function of the lag. *)
Lemma sac_function_any (x : list F) :
  exists r : Z -> F, forall k, Generic.sac x k = Returns (r k).
Proof.
  exists (fun k => match Generic.sac x k with
                   | Returns v => v
                   | Raises _ => Generic.of_int 0
                   end).
  intros k. now destruct (sac_returns_any x k) as [v ->].
Qed.

End AnyArithmetic.

(** ** The estimator *)

(** C2. In every arithmetic, hence in binary64 as the program runs: on
    an array [x] of length [N] and at a lag [0 <= k < N], [sac(x, k)]
    returns numerator / denominator, where, with the mean the sum of the
    elements over [N] and every sum taken by [np.sum] over the terms in
    increasing order of [i], the numerator is the sum of
    [(x_i - mean) * (x_i - mean)] over [i = 0 .. N-1] when [k = 0] and of
    [(x_i - mean) * (x_(i+k) - mean)] over [i = 0 .. N-1-k] when [k > 0],
    and the denominator is [N] times the population variance, the sum of
    the squared deviations over [N] (not [N-1]). *)
Theorem sac_formula {F : Type} {A : Generic.Arith F} (x : list F) (k : Z) :
  (0 <= k < len x)%Z ->
  Generic.sac x k =
  Returns (Generic.div (lag_numerator x k)
             (Generic.mul (Generic.of_int (len x)) (population_variance x))).
Proof.
  intros Hk. unfold Generic.sac; cbv zeta.
  rewrite np_mean_any, np_var_any. unfold lag_numerator.
  destruct (Z.eqb_spec k 0) as [->|Hk0].
  - now rewrite squared_deviations_any.
  - rewrite slice_to_lag, slice_from_lag by lia.
    unfold Generic.arr_mul, Generic.arr_sub_scalar.
    replace (Z.to_nat (len x - k)) with (length x - Z.to_nat k)%nat
      by (unfold len; lia).
    rewrite broadcast2_same
      by (rewrite !length_map, length_firstn, length_skipn; unfold len in Hk; lia).
    cbn [bind].
    rewrite lag_products_any by (unfold len in Hk; lia).
    now rewrite Z2Nat.id by lia.
Qed.

Lemma sac_formula_witness :
  (0 <= 1 < len [1; 2; 4]%float)%Z /\
  Generic.sac [1; 2; 4]%float 1 =
  Returns (Generic.div (lag_numerator [1; 2; 4]%float 1)
             (Generic.mul (Generic.of_int (len [1; 2; 4]%float))
                (population_variance [1; 2; 4]%float))).
Proof.
  assert (Hk : (0 <= 1 < len [1; 2; 4]%float)%Z) by (unfold len; simpl; lia).
  split; [exact Hk|].
  exact (sac_formula [1; 2; 4]%float 1 Hk).
Defined.

(** ** The accumulators *)

(** C1. In every arithmetic, hence in binary64 as the program runs: for
    every array [x] of length [N] and every integer [lags], with [r(k)]
    the value [sac(x, k)] returns at each sub-lag [k = 1 .. lags],
    [ljungbox(x, lags)] returns the float of [N (N + 2)] times the sum of
    the terms [r(k)^2 / (N - k)], accumulated from [0] over the sub-lags
    [1 .. lags] inclusive, in increasing order. *)
Theorem ljungbox_formula {F : Type} {A : Generic.Arith F}
  (x : list F) (lags : Z) (alpha : F) :
  exists r : Z -> F,
    (forall k, (1 <= k <= lags)%Z -> Generic.sac x k = Returns (r k)) /\
    Generic.ljungbox x lags alpha =
    Returns (Generic.mul (Generic.of_int (len x * (len x + 2)))
               (accumulate 1 lags
                  (fun k => Generic.div (Generic.sqr (r k))
                              (Generic.of_int (len x - k))))).
Proof.
  destruct (sac_function_any x) as [r Hr]. exists r.
  split; [intros; apply Hr|].
  unfold Generic.ljungbox; cbv zeta. rewrite py_range_indices.
  rewrite (for_each_fold _ _
             (fun Q k => Generic.add Q (Generic.div (Generic.sqr (r k))
                                          (Generic.of_int (len x - k))))).
  - reflexivity.
  - intros k Q _. now rewrite Hr.
Qed.

(** C3. In every arithmetic, hence in binary64 as the program runs: for
    every array [x] of length [N] and every integer [lags],
    [boxpierce(x, lags)] returns the float of [N] times the sum of the
    terms [r(k)^2], accumulated from [0] over the sub-lags [1 .. lags] in
    increasing order, with [r(k)] the value [sac(x, k)] returns, the
    estimator result the Ljung-Box accumulator uses. *)
Theorem boxpierce_formula {F : Type} {A : Generic.Arith F}
  (x : list F) (lags : Z) (alpha : F) :
  exists r : Z -> F,
    (forall k, (1 <= k <= lags)%Z -> Generic.sac x k = Returns (r k)) /\
    Generic.boxpierce x lags alpha =
    Returns (Generic.mul (Generic.of_int (len x))
               (accumulate 1 lags (fun k => Generic.sqr (r k)))).
Proof.
  destruct (sac_function_any x) as [r Hr]. exists r.
  split; [intros; apply Hr|].
  unfold Generic.boxpierce; cbv zeta. rewrite py_range_indices.
  rewrite (for_each_fold _ _ (fun Q k => Generic.add Q (Generic.sqr (r k)))).
  - reflexivity.
  - intros k Q _. now rewrite Hr.
Qed.

(** ** The driver *)

Section AnyDriver.

Context {F : Type} {A : Generic.Arith F}.

Lemma update_length_any (a : list F) (v : F) :
  forall i, length (Generic.update a i v) = length a.
Proof.
  induction a as [|a0 a IH]; intros [|i]; simpl; auto.
Qed.

Lemma nth_update_eq_any (a : list F) (v d : F) :
  forall i, (i < length a)%nat -> nth i (Generic.update a i v) d = v.
Proof.
  induction a as [|a0 a IH]; intros [|i] Hi; simpl in *; try lia; auto.
  apply IH. lia.
Qed.

Lemma nth_update_neq_any (a : list F) (v d : F) :
  forall i j, i <> j -> nth j (Generic.update a i v) d = nth j a d.
Proof.
  induction a as [|a0 a IH]; intros [|i] [|j] Hij; simpl; try reflexivity.
  - lia.
  - apply IH. lia.
Qed.

Lemma setitem_in_range_any (a : list F) (i : nat) (v : F) :
  (i < length a)%nat -> Generic.setitem a i v = Returns (Generic.update a i v).
Proof.
  intros Hi. unfold Generic.setitem.
  now destruct (Nat.ltb_spec i (length a)); [|lia].
Qed.

Lemma getitem_update_any (a : list F) (i : nat) (v : F) :
  (i < length a)%nat -> Generic.getitem (Generic.update a i v) i = Returns v.
Proof.
  intros Hi. unfold Generic.getitem.
  rewrite (nth_error_nth' _ v) by now rewrite update_length_any.
  now rewrite nth_update_eq_any.
Qed.

Lemma np_zeros_length_any (n : nat) : length (Generic.np_zeros (F := F) n) = n.
Proof. apply repeat_length. Qed.

Variable chi2_cdf : F -> Z -> F.
Variable chi2_ppf : F -> Z -> F.
Variable findq : list F -> Z -> F -> result F.
Variable x : list F.
Variable alpha : F.
Hypothesis findq_returns :
  forall lag, exists q, findq x lag Generic.default_alpha = Returns q.

(** One iteration: the three assignments at index [i]. *)
Lemma lbqtest_step_any (i : nat) (lag : Z) (st : Generic.arrays) (q : F) :
  has_room (S i) st -> findq x lag Generic.default_alpha = Returns q ->
  Generic.lbqtest_step chi2_cdf chi2_ppf findq x alpha (i, lag) st =
  Returns (Generic.mkArrays
             (Generic.update (Generic.arrQ st) i q)
             (Generic.update (Generic.arrpV st) i
                (Generic.sub (Generic.of_int 1) (chi2_cdf q lag)))
             (Generic.update (Generic.arrcV st) i
                (chi2_ppf (Generic.sub (Generic.of_int 1) alpha) lag))).
Proof.
  intros (HQ & HpV & HcV) Hq. unfold Generic.lbqtest_step. rewrite Hq. cbn [bind].
  rewrite setitem_in_range_any by lia. cbn [bind].
  rewrite getitem_update_any by lia. cbn [bind].
  rewrite !setitem_in_range_any by lia. reflexivity.
Qed.

(** The loop over [enumerate(lags)], started at index [i]: it returns,
    keeps the shapes and the entries below [i], and leaves at [i + j] the
    row of the [j]-th lag. *)
Lemma lbqtest_loop_any (lags : list Z) :
  forall (i : nat) (st : Generic.arrays),
    has_room (i + length lags) st ->
    exists st',
      for_each (enumerate_from i lags)
        (Generic.lbqtest_step chi2_cdf chi2_ppf findq x alpha) st = Returns st' /\
      shapes_kept st st' /\ entries_kept (Generic.of_int 0) i st st' /\
      forall j, (j < length lags)%nat ->
        row_of chi2_cdf chi2_ppf findq x alpha st' (i + j) (nth j lags 0%Z).
Proof.
  induction lags as [|lag lags IH]; intros i st Hfit.
  - exists st. simpl. repeat split; intros; simpl in *; lia.
  - destruct Hfit as (HQ & HpV & HcV). simpl length in *.
    destruct (findq_returns lag) as [q Hq].
    cbn [enumerate_from for_each].
    rewrite (lbqtest_step_any i lag st q) by (unfold has_room; (lia || assumption)).
    cbn [bind].
    match goal with |- context [for_each _ _ ?s] => set (st1 := s) end.
    destruct (IH (S i) st1) as (st' & Hrun & Hshape & Hbelow & Hrows).
    { unfold has_room, st1; simpl. rewrite !update_length_any. lia. }
    exists st'. split; [exact Hrun|].
    destruct Hshape as (SQ & SpV & ScV). unfold st1 in SQ, SpV, ScV.
    simpl in SQ, SpV, ScV. rewrite update_length_any in SQ, SpV, ScV.
    split; [now repeat split|]. split.
    + intros j Hj. destruct (Hbelow j ltac:(lia)) as (BQ & BpV & BcV).
      unfold st1 in BQ, BpV, BcV. simpl in BQ, BpV, BcV.
      rewrite nth_update_neq_any in BQ, BpV, BcV by lia. now repeat split.
    + intros [|j] Hj.
      * rewrite Nat.add_0_r. simpl nth.
        destruct (Hbelow i ltac:(lia)) as (BQ & BpV & BcV).
        unfold st1 in BQ, BpV, BcV. simpl in BQ, BpV, BcV.
        rewrite nth_update_eq_any in BQ, BpV, BcV by lia.
        unfold row_of; cbv zeta. rewrite BQ, BpV, BcV. now repeat split.
      * replace (i + S j)%nat with (S i + j)%nat by lia.
        apply Hrows. lia.
Qed.

End AnyDriver.

Lemma accumulators_return_any {F : Type} {A : Generic.Arith F}
  (x : list F) (lags : Z) (alpha : F) :
  (exists q, Generic.ljungbox x lags alpha = Returns q) /\
  (exists q, Generic.boxpierce x lags alpha = Returns q).
Proof.
  destruct (sac_function_any x) as [r Hr].
  unfold Generic.ljungbox, Generic.boxpierce; cbv zeta. split.
  - rewrite (for_each_fold _ _
               (fun Q k => Generic.add Q (Generic.div (Generic.sqr (r k))
                                            (Generic.of_int (len x - k)))))
      by (intros k Q _; now rewrite Hr).
    cbn [bind]. eauto.
  - rewrite (for_each_fold _ _ (fun Q k => Generic.add Q (Generic.sqr (r k))))
      by (intros k Q _; now rewrite Hr).
    cbn [bind]. eauto.
Qed.

Lemma selected_returns_any {F : Type} {A : Generic.Arith F}
  (method : string) (x : list F) (lag : Z) (alpha : F) :
  exists q, Generic.selected method x lag alpha = Returns q.
Proof.
  unfold Generic.selected.
  destruct (String.eqb method "lb"); apply accumulators_return_any.
Qed.

(** C4. In every arithmetic, hence in binary64 as the program runs: for
    every array [x], every sequence of target lags, every [alpha] and
    every method, [lbqtest] returns four sequences [(h, pV, Q, cV)] of
    the length of [lags] such that at every index [i]: [Q[i]] is the
    result of the selected accumulator (Ljung-Box for ['lb'], Box-Pierce
    for ['bp']) on [(x, lags[i])], [pV[i] = 1 - cdf(Q[i], lags[i])],
    [cV[i] = ppf(1 - alpha, lags[i])], and [h[i]] is [Q[i] > cV[i]]. *)
Theorem lbqtest_spec {F : Type} {A : Generic.Arith F}
  (chi2_cdf chi2_ppf : F -> Z -> F)
  (x : list F) (lags : list Z) (alpha : F) (method : string) :
  exists h pV Q cV,
    Generic.lbqtest chi2_cdf chi2_ppf x lags alpha method =
      Returns (h, pV, Q, cV) /\
    (length h = length lags /\ length pV = length lags /\
     length Q = length lags /\ length cV = length lags) /\
    forall i, (i < length lags)%nat ->
      let lag := nth i lags 0%Z in
      let Qi := nth i Q (Generic.of_int 0) in
      let cVi := nth i cV (Generic.of_int 0) in
      (method = "lb"%string ->
       Generic.ljungbox x lag Generic.default_alpha = Returns Qi) /\
      (method = "bp"%string ->
       Generic.boxpierce x lag Generic.default_alpha = Returns Qi) /\
      nth i pV (Generic.of_int 0) =
        Generic.sub (Generic.of_int 1) (chi2_cdf Qi lag) /\
      cVi = chi2_ppf (Generic.sub (Generic.of_int 1) alpha) lag /\
      nth i h false = Generic.gtb Qi cVi.
Proof.
  unfold Generic.lbqtest; cbv zeta.
  set (st0 := Generic.mkArrays _ _ _).
  destruct (lbqtest_loop_any chi2_cdf chi2_ppf (Generic.selected method) x alpha
              (fun lag => selected_returns_any method x lag Generic.default_alpha)
              lags 0 st0)
    as (st' & Hrun & (SQ & SpV & ScV) & _ & Hrows).
  { unfold has_room, st0; simpl. rewrite np_zeros_length_any. lia. }
  unfold st0 in SQ, SpV, ScV. simpl in SQ, SpV, ScV.
  rewrite np_zeros_length_any in SQ, SpV, ScV.
  unfold enumerate. rewrite Hrun. cbn [bind].
  rewrite broadcast2_same by congruence. cbn [bind].
  exists (map2 Generic.gtb (Generic.arrQ st') (Generic.arrcV st')),
    (Generic.arrpV st'), (Generic.arrQ st'), (Generic.arrcV st').
  split; [reflexivity|]. split.
  - rewrite map2_length by congruence. now repeat split.
  - intros i Hi.
    destruct (Hrows i Hi) as (Hq & HpV & HcV). simpl in Hq, HpV, HcV.
    split; [intros ->; exact Hq|].
    split; [intros ->; exact Hq|].
    split; [exact HpV|]. split; [exact HcV|].
    apply nth_map2; congruence || lia.
Qed.

(** ** Lags at or beyond the length of the array *)

(** Both arithmetics have a [nan]. *)
Lemma exact_nan_laws : nan_laws exact NaN.
Proof.
  unfold nan_laws.
  cbn [Generic.add Generic.mul Generic.div Generic.sqr Generic.np_sum
       Generic.of_int exact].
  split; [|split; [|split]].
  - intros a. now destruct a.
  - intros a. now destruct a.
  - intros a. now destruct a.
  - intros D. change (np_sum []) with (Fin 0).
    assert (H : forall v, v = 0 -> ndiv (Fin v) (Fin 0) = NaN)
      by (intros v ->; apply ndiv_zero_zero).
    destruct D as [s| | |]; [| | |reflexivity].
    + cbn [ndiv]. destruct (Req_dec_T s 0) as [_|Hs].
      * unfold Rsign. destruct (Rlt_dec 0 0) as [H0|_]; [exfalso; lra|].
        reflexivity.
      * rewrite nsqr_fin. apply H. unfold Rdiv. ring.
    + cbn [ndiv]. rewrite nsqr_fin. apply H. ring.
    + cbn [ndiv]. rewrite nsqr_fin. apply H. ring.
Qed.

Lemma binary64_nan_laws : nan_laws binary64 PrimFloat.nan.
Proof.
  unfold nan_laws.
  cbn [Generic.add Generic.mul Generic.div Generic.sqr Generic.np_sum
       Generic.of_int binary64].
  split; [|split; [|split]]; intros a; apply Prim2SF_inj.
  - rewrite add_spec. replace (Prim2SF PrimFloat.nan) with S754_nan by reflexivity.
    reflexivity.
  - rewrite add_spec. replace (Prim2SF PrimFloat.nan) with S754_nan by reflexivity.
    now destruct (Prim2SF a).
  - rewrite mul_spec. replace (Prim2SF PrimFloat.nan) with S754_nan by reflexivity.
    now destruct (Prim2SF a).
  - rewrite div_spec, mul_spec, div_spec.
    replace (Prim2SF (float_sum [])) with (S754_zero false) by reflexivity.
    replace (Prim2SF (float_of_int 0)) with (S754_zero false) by reflexivity.
    replace (Prim2SF PrimFloat.nan) with S754_nan by reflexivity.
    now destruct (Prim2SF a).
Qed.

(** At a lag [k >= N] both slices are empty: the numerator is the sum of
    no term. *)
Lemma sac_beyond_any {F : Type} {A : Generic.Arith F} (x : list F) (k : Z) :
  (1 <= len x)%Z -> (len x <= k)%Z ->
  Generic.sac x k =
  Returns (Generic.div (Generic.np_sum [])
             (Generic.mul (Generic.of_int (len x)) (Generic.np_var x))).
Proof.
  intros HN Hk. unfold Generic.sac; cbv zeta.
  destruct (Z.eqb_spec k 0) as [->|_]; [lia|].
  rewrite slice_to_lag, slice_from_lag by lia.
  replace (Z.to_nat (len x - k)) with O by lia.
  rewrite skipn_all2 by (unfold len in Hk; lia).
  cbn [firstn Generic.arr_sub_scalar map]. unfold Generic.arr_mul.
  now rewrite broadcast2_same by reflexivity.
Qed.

(** The term of the Ljung-Box loop at [k = N] is [nan], and so is the
    statistic. *)
Lemma ljungbox_beyond_any {F : Type} {A : Generic.Arith F} (nan : F)
  (x : list F) (maxLag : Z) (alpha : F) :
  nan_laws A nan -> (1 <= len x)%Z -> (len x <= maxLag)%Z ->
  Generic.ljungbox x maxLag alpha = Returns nan.
Proof.
  intros (Hl & Hr & Hm & Hz) HN Hk.
  destruct (sac_function_any x) as [r Hsac].
  unfold Generic.ljungbox; cbv zeta.
  rewrite (py_range_split 1 (len x) (maxLag + 1)) by lia.
  rewrite (py_range_cons (len x)) by lia.
  rewrite for_each_app.
  rewrite (for_each_fold (py_range 1 (len x)) _
             (fun Q k => Generic.add Q (Generic.div (Generic.sqr (r k))
                                          (Generic.of_int (len x - k)))))
    by (intros k Q _; now rewrite Hsac).
  cbn [bind for_each].
  rewrite sac_beyond_any by lia. cbn [bind].
  rewrite Z.sub_diag, Hz, Hr.
  rewrite for_each_fixed.
  - cbn [bind]. now rewrite Hm.
  - intros k _. rewrite Hsac. cbn [bind]. now rewrite Hl.
Qed.

(** C6, amended.  In every arithmetic, hence in binary64 as the program
    runs: on an array of length [N >= 1], for [maxLag >= N] and [k >= N],
    no function raises.  [ljungbox(x, maxLag)] and [boxpierce(x, maxLag)]
    return a value, and [sac(x, k)] returns the sum of no term over
    [N] times the variance [np.var(x)].  Where the arithmetic has a [nan]
    (binary64 and the exact arithmetic do), [ljungbox(x, maxLag)] returns
    [nan]. *)
Theorem beyond_length_returns {F : Type} {A : Generic.Arith F} (nan : F)
  (x : list F) (maxLag k : Z) (alpha : F) :
  (1 <= len x)%Z -> (len x <= maxLag)%Z -> (len x <= k)%Z ->
  (exists q, Generic.ljungbox x maxLag alpha = Returns q) /\
  (exists q, Generic.boxpierce x maxLag alpha = Returns q) /\
  Generic.sac x k =
    Returns (Generic.div (Generic.np_sum [])
               (Generic.mul (Generic.of_int (len x)) (Generic.np_var x))) /\
  (nan_laws A nan -> Generic.ljungbox x maxLag alpha = Returns nan).
Proof.
  intros HN Hl Hk.
  split; [apply accumulators_return_any|].
  split; [apply accumulators_return_any|].
  split; [now apply sac_beyond_any|].
  intros Hnan. now apply ljungbox_beyond_any.
Qed.

Lemma beyond_length_returns_witness :
  (1 <= len [1; 2]%float)%Z /\ (len [1; 2]%float <= 2)%Z /\
  (len [1; 2]%float <= 3)%Z /\
  Generic.ljungbox [1; 2]%float 2 Generic.default_alpha = Returns PrimFloat.nan.
Proof.
  assert (HN : (1 <= len [1; 2]%float)%Z) by (unfold len; simpl; lia).
  assert (Hl : (len [1; 2]%float <= 2)%Z) by (unfold len; simpl; lia).
  assert (Hk : (len [1; 2]%float <= 3)%Z) by (unfold len; simpl; lia).
  split; [exact HN|]. split; [exact Hl|]. split; [exact Hk|].
  exact (proj2 (proj2 (proj2
           (beyond_length_returns PrimFloat.nan [1; 2]%float 2 3
              Generic.default_alpha HN Hl Hk))) binary64_nan_laws).
Defined.

(** ** The program in binary64, on concrete arrays *)

(** In binary64, [sac([1, 2], 2)] is [0.0] and [ljungbox([1, 2], 2)] is
    [nan]: no error is raised. *)
Example binary64_beyond_length :
  Generic.sac [1; 2]%float 2 = Returns 0%float /\
  Generic.ljungbox [1; 2]%float 2 Generic.default_alpha = Returns PrimFloat.nan /\
  Generic.boxpierce [1; 2]%float 2 Generic.default_alpha = Returns 0.5%float.
Proof. vm_compute. repeat split. Qed.

(** In binary64 the mean of [[0.1, 0.1, 0.1]] is not [0.1]: the variance is
    not zero and the estimator is a number. *)
Example binary64_constant_signal :
  Generic.sac [0x1.999999999999ap-4; 0x1.999999999999ap-4;
               0x1.999999999999ap-4]%float 1 = Returns 0x1.5555555555555p-1%float.
Proof. vm_compute. reflexivity. Qed.


(** ** The driver of the exact arithmetic is an instance too *)

Lemma exact_lbqtest_loop (chi2_cdf chi2_ppf : num -> Z -> num)
  (x : array) (alpha : R) (method : string) (lags : list Z) :
  forall (i : nat) (Q pV cV : array),
    same_run
      (for_each (enumerate_from i lags)
         (Generic.lbqtest_step chi2_cdf chi2_ppf (Generic.selected method)
            x (Fin alpha))
         (Generic.mkArrays Q pV cV))
      (for_each (enumerate_from i lags)
         (lbqtest_step chi2_cdf chi2_ppf (selected method) x alpha)
         (mkArrays Q pV cV)).
Proof.
  induction lags as [|lag lags IH]; intros i Q pV cV.
  - simpl. now repeat split.
  - cbn [enumerate_from for_each].
    unfold Generic.lbqtest_step at 1, lbqtest_step at 1.
    cbn [Generic.arrQ Generic.arrpV Generic.arrcV arrQ arrpV arrcV].
    replace (Generic.selected method x lag Generic.default_alpha)
      with (selected method x lag alpha_default)
      by (unfold Generic.selected, selected;
          now destruct (String.eqb method "lb")).
    destruct (selected method x lag alpha_default) as [q|e];
      [|now cbn [bind same_run]].
    cbn [bind].
    change (Generic.setitem Q i q) with (setitem Q i q).
    destruct (setitem Q i q) as [Q1|e]; [|now cbn [bind same_run]].
    cbn [bind].
    change (Generic.getitem Q1 i) with (getitem Q1 i).
    destruct (getitem Q1 i) as [Qi|e]; [|now cbn [bind same_run]].
    cbn [bind].
    change (Generic.setitem pV i
              (Generic.sub (Generic.of_int 1) (chi2_cdf Qi lag)))
      with (setitem pV i (nsub (Fin 1) (chi2_cdf Qi lag))).
    destruct (setitem pV i (nsub (Fin 1) (chi2_cdf Qi lag))) as [pV1|e];
      [|now cbn [bind same_run]].
    cbn [bind].
    change (Generic.setitem cV i
              (chi2_ppf (Generic.sub (Generic.of_int 1) (Fin alpha)) lag))
      with (setitem cV i (chi2_ppf (Fin (1 - alpha)) lag)).
    destruct (setitem cV i (chi2_ppf (Fin (1 - alpha)) lag)) as [cV1|e];
      [|now cbn [bind same_run]].
    cbn [bind]. apply IH.
Qed.

Lemma exact_lbqtest (chi2_cdf chi2_ppf : num -> Z -> num)
  (x : array) (lags : list Z) (alpha : R) (method : string) :
  Generic.lbqtest chi2_cdf chi2_ppf x lags (Fin alpha) method =
  lbqtest chi2_cdf chi2_ppf x lags alpha method.
Proof.
  unfold Generic.lbqtest, lbqtest; cbv zeta. unfold enumerate.
  pose proof (exact_lbqtest_loop chi2_cdf chi2_ppf x alpha method lags 0
                (np_zeros (length lags)) (np_zeros (length lags))
                (np_zeros (length lags))) as H.
  change (Generic.np_zeros (length lags)) with (np_zeros (length lags)).
  unfold same_run in H.
  destruct (for_each _ (Generic.lbqtest_step _ _ _ _ _) _) as [g|e],
           (for_each _ (lbqtest_step _ _ _ _ _) _) as [s|e'];
    try contradiction.
  - destruct H as (HQ & HpV & HcV). cbn [bind]. now rewrite HQ, HpV, HcV.
  - now subst.
Qed.
